(** * dexit: a shallow embedding of the core (Util, ModuleMgr, Repository, Runner)

    JavaScript data is modelled by [value]; a plain JS object is an
    association list of its own properties in creation order, and its
    [for ... in] enumeration order is computed by [js_keys] (array-index
    keys first, ascending, then the others in creation order).  Functions
    that may throw return [option]: [None] is a thrown exception. *)

From Stdlib Require Import String Ascii List ZArith NArith Bool Lia Sorted Permutation.
Import ListNotations.
Open Scope string_scope.
#[local] Set Warnings "-register-all".

(* ------------------------------------------------------------------ *)
(** ** JavaScript values *)

Inductive value : Type :=
| VUndef
| VNull
| VBool (b : bool)
| VNum (z : Z)                       (* integral numbers only *)
| VStr (s : string)
| VArr (xs : list value)
| VObj (props : list (string * value))
| VFun (name : string).              (* a function object, e.g. a compiled validator *)

(** JS truthiness. *)
Definition truthy (v : value) : bool :=
  match v with
  | VUndef | VNull => false
  | VBool b => b
  | VNum z => negb (Z.eqb z 0)
  | VStr s => negb (String.eqb s "")
  | _ => true
  end.

(** Decimal rendering of naturals and integers (Number.prototype.toString on
    integral values). *)
Fixpoint N_digits (fuel : nat) (n : N) (acc : string) : string :=
  match fuel with
  | O => acc
  | S f =>
      let acc' := String (ascii_of_N (48 + N.modulo n 10)) acc in
      if N.ltb n 10 then acc' else N_digits f (N.div n 10) acc'
  end.

Definition string_of_N (n : N) : string :=
  N_digits (S (N.to_nat (N.size n))) n "".

Definition string_of_nat (n : nat) : string := string_of_N (N.of_nat n).

Definition string_of_Z (z : Z) : string :=
  match z with
  | Z.neg p => "-" ++ string_of_N (Npos p)
  | _ => string_of_N (Z.to_N z)
  end.

(** [String(v)] / the ToString conversion applied to a replacement value. *)
Fixpoint to_js_string (v : value) : string :=
  match v with
  | VUndef => "undefined"
  | VNull => "null"
  | VBool true => "true"
  | VBool false => "false"
  | VNum z => string_of_Z z
  | VStr s => s
  | VArr xs =>
      (* Array.prototype.join(","): null and undefined elements print as "" *)
      (fix join (l : list value) : string :=
         match l with
         | [] => ""
         | x :: r =>
             let sx := match x with VUndef | VNull => "" | _ => to_js_string x end in
             match r with [] => sx | _ => sx ++ "," ++ join r end
         end) xs
  | VObj _ => "[object Object]"
  | VFun n => "function " ++ n ++ "() { [native code] }"
  end.

(* ------------------------------------------------------------------ *)
(** ** JavaScript objects used as maps *)

Section JsObject.
Context {A : Type}.

(** Own-property lookup. *)
Fixpoint js_lookup (k : string) (m : list (string * A)) : option A :=
  match m with
  | [] => None
  | (k', v) :: r => if String.eqb k k' then Some v else js_lookup k r
  end.

(** [m[k] = v]: an existing property keeps its position, a new one is added
    last. *)
Fixpoint js_set (k : string) (v : A) (m : list (string * A)) : list (string * A) :=
  match m with
  | [] => [(k, v)]
  | (k', v') :: r => if String.eqb k k' then (k, v) :: r else (k', v') :: js_set k v r
  end.

End JsObject.

Definition is_digit (c : ascii) : bool :=
  let n := nat_of_ascii c in Nat.leb 48 n && Nat.leb n 57.

Fixpoint digits_value (s : string) (acc : N) : option N :=
  match s with
  | EmptyString => Some acc
  | String c r =>
      if is_digit c then digits_value r (acc * 10 + (N.of_nat (nat_of_ascii c) - 48))
      else None
  end.

(** A property key is an array index when it is the canonical decimal
    form of a number below 2^32 - 1. *)
Definition array_index (s : string) : option N :=
  match s with
  | EmptyString => None
  | String c r =>
      if Ascii.eqb c "0"%char && negb (String.eqb r "") then None
      else match digits_value s 0 with
           | Some n => if N.ltb n 4294967295 then Some n else None
           | None => None
           end
  end.

Fixpoint insert_index (k : N * string) (l : list (N * string)) : list (N * string) :=
  match l with
  | [] => [k]
  | k' :: r => if N.leb (fst k) (fst k') then k :: l else k' :: insert_index k r
  end.

(** The [for (const k in obj)] enumeration order of an object's own keys. *)
Definition js_keys {A} (m : list (string * A)) : list string :=
  let idx := fold_left (fun acc kv => match array_index (fst kv) with
                                      | Some n => insert_index (n, fst kv) acc
                                      | None => acc end) m [] in
  map snd idx ++
  map fst (filter (fun kv => match array_index (fst kv) with Some _ => false | None => true end) m).

(** Properties every plain object inherits from Object.prototype. *)
Definition object_prototype_keys : list string :=
  ["constructor"; "__defineGetter__"; "__defineSetter__"; "hasOwnProperty";
   "__lookupGetter__"; "__lookupSetter__"; "isPrototypeOf";
   "propertyIsEnumerable"; "toString"; "valueOf"; "__proto__"; "toLocaleString"].

Definition is_proto_key (k : string) : bool :=
  existsb (String.eqb k) object_prototype_keys.

(** [obj[k]] on a plain object: an own property, an inherited
    Object.prototype member, or undefined. *)
Inductive js_get_result (A : Type) : Type :=
| Own (a : A)
| Inherited (k : string)
| Undefined.
Arguments Own {A} a.
Arguments Inherited {A} k.
Arguments Undefined {A}.

Definition js_get {A} (m : list (string * A)) (k : string) : js_get_result A :=
  match js_lookup k m with
  | Some a => Own a
  | None => if is_proto_key k then Inherited k else Undefined
  end.

(* ------------------------------------------------------------------ *)
(** ** Util.resolveArgs (the Interpolator) *)

(** Characters of the class [[a-zA-Z0-9\.\_\[\]\*@\?><=\!]]. *)
Definition is_ipol_char (c : ascii) : bool :=
  let n := nat_of_ascii c in
  (Nat.leb 97 n && Nat.leb n 122) || (Nat.leb 65 n && Nat.leb n 90) || is_digit c ||
  existsb (Ascii.eqb c) ["."; "_"; "["; "]"; "*"; "@"; "?"; ">"; "<"; "="; "!"]%char.

(** Scanner state for the global regex [/\$\{([...]+)\}/g]: a match is
    "${", a non-empty run of class characters, then "}".  No class
    character is "$" or "{", so after a failed attempt the next possible
    match starts at the failing character at the earliest. *)
Inductive scan_state : Type :=
| SNormal
| SDollar
| SToken (acc : string).   (* class characters read after "${", reversed *)

Fixpoint rev_string (s : string) (acc : string) : string :=
  match s with
  | EmptyString => acc
  | String c r => rev_string r (String c acc)
  end.

Definition scan_restart (c : ascii) : scan_state :=
  if Ascii.eqb c "$" then SDollar else SNormal.

Fixpoint scan (s : string) (st : scan_state) : list string :=
  match s with
  | EmptyString => []
  | String c r =>
      match st with
      | SNormal => scan r (scan_restart c)
      | SDollar => if Ascii.eqb c "{" then scan r (SToken "") else scan r (scan_restart c)
      | SToken acc =>
          if is_ipol_char c then scan r (SToken (String c acc))
          else if Ascii.eqb c "}" && negb (String.eqb acc "") then
            ("${" ++ rev_string acc "" ++ "}") :: scan r SNormal
          else scan r (scan_restart c)
      end
  end.

(** [args.match(re)]: the list of matches ([null] is the empty list). *)
Definition ipol_matches (s : string) : list string := scan s SNormal.

(** [ipols[i].substr(2, ipols[i].length - 3)]. *)
Definition token_path (tok : string) : string :=
  substring 2 (String.length tok - 3) tok.

(** GetSubstitution for a string pattern (no capture groups). *)
Fixpoint get_substitution (matched prefix suffix repl : string) : string :=
  match repl with
  | String "$" (String "$" r) => "$" ++ get_substitution matched prefix suffix r
  | String "$" (String "&" r) => matched ++ get_substitution matched prefix suffix r
  | String "$" (String "`" r) => prefix ++ get_substitution matched prefix suffix r
  | String "$" (String "'" r) => suffix ++ get_substitution matched prefix suffix r
  | String c r => String c (get_substitution matched prefix suffix r)
  | EmptyString => EmptyString
  end.

(** [str.replace(pat, repl)] with a string pattern: the first occurrence only. *)
Definition js_replace (str pat repl : string) : string :=
  match String.index 0 pat str with
  | None => str
  | Some i =>
      let prefix := substring 0 i str in
      let suffix := substring (i + String.length pat) (String.length str - (i + String.length pat)) str in
      prefix ++ get_substitution pat prefix suffix repl ++ suffix
  end.

Section Interpolator.

(** [JP.value(data, path)] of the jsonpath library: the first value the
    path selects, undefined when it selects nothing; [None] when the library
    throws (e.g. on a path it cannot parse). *)
Variable JP_value : value -> string -> option value.

Definition interpolate_step (data : value) (args : string)
    (acc : option (value + string)) (tok : string) : option (value + string) :=
  match acc with
  | Some (inr res) =>
      match JP_value data ("$." ++ token_path tok) with
      | None => None
      | Some v =>
          if String.eqb args tok then Some (inl v)
          else Some (inr (js_replace res tok (to_js_string v)))
      end
  | other => other
  end.

(** The string case of [resolveArgs]. *)
Definition resolveString (data : value) (args : string) : option value :=
  match fold_left (interpolate_step data args) (ipol_matches args) (Some (inr args)) with
  | None => None
  | Some (inl v) => Some v
  | Some (inr res) => Some (VStr res)
  end.

Fixpoint resolveArgs (data : value) (args : value) {struct args} : option value :=
  match args with
  | VStr s => resolveString data s
  | VArr xs =>
      let fix go (l : list value) : option (list value) :=
        match l with
        | [] => Some []
        | x :: r =>
            match resolveArgs data x with
            | None => None
            | Some y => match go r with None => None | Some ys => Some (y :: ys) end
            end
        end in
      match go xs with None => None | Some ys => Some (VArr ys) end
  | VObj ps =>
      let fix go (l : list (string * value)) : option (list (string * value)) :=
        match l with
        | [] => Some []
        | (k, x) :: r =>
            match resolveArgs data x with
            | None => None
            | Some y => match go r with None => None | Some ys => Some ((k, y) :: ys) end
            end
        end in
      (* for (const k in args) res[k] = ...: the result object receives the
         keys in enumeration order; the order in which the values are
         resolved only decides which exception is thrown first *)
      match go ps with
      | None => None
      | Some ys =>
          Some (VObj (flat_map (fun k => match js_lookup k ys with
                                         | Some y => [(k, y)] | None => [] end) (js_keys ys)))
      end
  | VFun _ => Some (VObj [])      (* a function is an Object with no enumerable keys *)
  | _ => Some args
  end.

End Interpolator.

(** [s.split(".")]: the pieces between the dots ([cur] is the current piece,
    reversed). *)
Fixpoint js_split_dot (s : string) (cur : string) : list string :=
  match s with
  | EmptyString => [rev_string cur ""]
  | String "." r => rev_string cur "" :: js_split_dot r ""
  | String c r => js_split_dot r (String c cur)
  end.

(** A concrete [JP.value] for member paths [$.a.b.c] (the fragment the
    examples use): a missing member is undefined; any other path syntax is
    refused. *)
Definition plain_member (s : string) : bool :=
  negb (String.eqb s "") &&
  forallb (fun c => let n := nat_of_ascii c in
                    (Nat.leb 97 n && Nat.leb n 122) || (Nat.leb 65 n && Nat.leb n 90)
                    || is_digit c || Ascii.eqb c "_")
          (list_ascii_of_string s).

Fixpoint member_path (v : value) (segs : list string) : value :=
  match segs with
  | [] => v
  | s :: r =>
      match v with
      | VObj ps => match js_lookup s ps with Some x => member_path x r | None => VUndef end
      | _ => VUndef
      end
  end.

Definition jp_member (data : value) (path : string) : option value :=
  match path with
  | String "$" (String "." p) =>
      let segs := js_split_dot p "" in
      if forallb plain_member segs then Some (member_path data segs) else None
  | _ => None
  end.

(** A [${...}] token path: a non-empty run of class characters. *)
Fixpoint all_ipol (s : string) : bool :=
  match s with
  | EmptyString => true
  | String c r => is_ipol_char c && all_ipol r
  end.

Definition ipol_path (p : string) : bool := negb (String.eqb p "") && all_ipol p.


(* ------------------------------------------------------------------ *)
(** ** ModuleMgr *)

(** A value that may be a thrown exception. *)
Inductive js_result (A : Type) : Type :=
| Ok (a : A)
| Throw (msg : string).
Arguments Ok {A} a.
Arguments Throw {A} msg.

(** How the promise returned by [cmd.run] settles. *)
Inductive settle : Type :=
| Resolves (result : value)
| Rejects (err : string).

(** ITestCommand.  The handlers are the command's behaviour: [run] answers
    whether it calls its [onReady] callback and how its promise settles;
    [getLabel] gives [None] when it throws.  [extra] holds any further own
    properties of the command object. *)
Module Cmd.
Record t : Type := mk {
  description : value;
  argsSchema : value;
  _argsValidator : value;
  expectSchema : value;
  _expectValidator : value;
  validateArgs : option (value -> list string);
  validateExpect : option (value -> list string);
  run : option (value -> bool * settle);
  expect : option (value -> value -> list string);
  getLabel : option (value -> value -> option string);
  extra : list (string * value)
}.
End Cmd.

(** ITestModule. *)
Module Mod.
Record t : Type := mk {
  name : string;
  commands : list (string * Cmd.t)
}.
End Mod.

(** [ModuleMgr.modules]. *)
Definition registry := list (string * Mod.t).

Section ModuleMgr.

(** [this.ajv.compile(schema)]: the compiled validator, or an exception for
    a schema Ajv refuses. *)
Variable ajv_compile : value -> js_result value.

Definition set_validators (cmd : Cmd.t) : js_result Cmd.t :=
  match (if truthy (Cmd.argsSchema cmd) then
           match ajv_compile (Cmd.argsSchema cmd) with
           | Ok f => Ok (Some f) | Throw e => Throw e end
         else Ok None) with
  | Throw e => Throw e
  | Ok av =>
      let cmd1 := match av with
                  | Some f => Cmd.mk (Cmd.description cmd) (Cmd.argsSchema cmd) f
                                (Cmd.expectSchema cmd) (Cmd._expectValidator cmd)
                                (Cmd.validateArgs cmd) (Cmd.validateExpect cmd) (Cmd.run cmd)
                                (Cmd.expect cmd) (Cmd.getLabel cmd) (Cmd.extra cmd)
                  | None => cmd end in
      if truthy (Cmd.expectSchema cmd1) then
        match ajv_compile (Cmd.expectSchema cmd1) with
        | Throw e => Throw e
        | Ok f => Ok (Cmd.mk (Cmd.description cmd1) (Cmd.argsSchema cmd1) (Cmd._argsValidator cmd1)
                             (Cmd.expectSchema cmd1) f
                             (Cmd.validateArgs cmd1) (Cmd.validateExpect cmd1) (Cmd.run cmd1)
                             (Cmd.expect cmd1) (Cmd.getLabel cmd1) (Cmd.extra cmd1))
        end
      else Ok cmd1
  end.

Fixpoint set_all_validators (keys : list string) (cmds : list (string * Cmd.t))
    : js_result (list (string * Cmd.t)) :=
  match keys with
  | [] => Ok cmds
  | i :: ks =>
      match js_lookup i cmds with
      | None => set_all_validators ks cmds
      | Some cmd =>
          match set_validators cmd with
          | Throw e => Throw e
          | Ok cmd' => set_all_validators ks (js_set i cmd' cmds)
          end
      end
  end.

(** [ModuleMgr.register]: the registry after the call, or the exception. *)
Definition register (modules : registry) (md : Mod.t) : js_result registry :=
  match js_get modules (Mod.name md) with
  | Own _ | Inherited _ =>
      Throw ("Module '" ++ Mod.name md ++ "' is already registered.")
  | Undefined =>
      match set_all_validators (js_keys (Mod.commands md)) (Mod.commands md) with
      | Throw e => Throw e
      | Ok cmds => Ok (js_set (Mod.name md) (Mod.mk (Mod.name md) cmds) modules)
      end
  end.

End ModuleMgr.

Definition validateCommand (id i : string) (cmd : Cmd.t) : option string :=
  if negb (truthy (Cmd.description cmd)) then
    Some ("Module '" ++ id ++ "' command '" ++ i ++ "' definition must has 'description' property.")
  else if match Cmd.run cmd with None => true | Some _ => false end then
    Some ("Module '" ++ id ++ "' command '" ++ i ++ "' definition must has 'run' property.")
  else if truthy (Cmd._argsValidator cmd) then
    Some ("Module '" ++ id ++ "' command '" ++ i ++ "' cannot has '_argsValidator' property because it is reserved.")
  else if truthy (Cmd._expectValidator cmd) then
    Some ("Module '" ++ id ++ "' command '" ++ i ++ "' cannot has '_expectValidator' property because it is reserved.")
  else None.

(** [ModuleMgr.validateModuleObject]: [Some msg] is the thrown error.  The
    [instanceof Object] and [typeof ... === "function"] checks hold by the
    types of [Mod.t] and [Cmd.t]. *)
Definition validateModuleObject (id : string) (md : Mod.t) : option string :=
  if String.eqb (Mod.name md) "" then
    Some ("Module '" ++ id ++ "' definition must has a 'name' property.")
  else
    fold_left (fun acc i => match acc with
                            | Some e => Some e
                            | None => match js_lookup i (Mod.commands md) with
                                      | Some cmd => validateCommand id i cmd
                                      | None => None end
                            end) (js_keys (Mod.commands md)) None.

(** [ModuleMgr.load] once [require(filename)] has produced the module object. *)
Definition load (ajv_compile : value -> js_result value) (modules : registry)
    (filename : string) (md : Mod.t) : js_result registry :=
  match validateModuleObject filename md with
  | Some e => Throw e
  | None => register ajv_compile modules md
  end.

(** [id.split(".", 2)]. *)
Definition split_command_id (id : string) : list string := firstn 2 (js_split_dot id "").

Record parsed_command : Type := mkParsed {
  p_module : string;
  p_command : option string      (* [None]: undefined *)
}.

(** [ModuleMgr.parseCommand]. *)
Definition parseCommand (id : string) : parsed_command :=
  let path := split_command_id id in
  mkParsed (nth 0 path "") (nth_error path 1).

(** What [getCommand] returns: null, a registered command, or a member
    inherited from Object.prototype. *)
Inductive command_ref : Type :=
| CNull
| CCmd (c : Cmd.t)
| CProto (k : string).

(** [ModuleMgr.getCommand].  A missing [path[1]] is the property key
    "undefined". *)
Definition getCommand (modules : registry) (id : string) : js_result command_ref :=
  let path := split_command_id id in
  let key := match nth_error path 1 with Some c => c | None => "undefined" end in
  match js_get modules (nth 0 path "") with
  | Undefined => Ok CNull
  | Inherited k =>
      (* Object.prototype members have no [commands]: undefined[key] *)
      Throw ("TypeError: Cannot read property '" ++ key ++ "' of undefined")
  | Own md =>
      match js_get (Mod.commands md) key with
      | Own c => Ok (CCmd c)
      | Inherited k => Ok (CProto k)
      | Undefined => Ok CNull
      end
  end.

(** The text contains no ".". *)
Fixpoint no_dot (s : string) : bool :=
  match s with
  | EmptyString => true
  | String c r => negb (Ascii.eqb c ".") && no_dot r
  end.


(* ------------------------------------------------------------------ *)
(** ** Test documents (Interfaces) *)

(** ITestTask; an absent optional property is [None]. *)
Module Task.
Record t : Type := mk {
  id : option string;
  description : option string;
  do_ : string;                       (* the [do] property *)
  args : option value;
  expect : option value;
  set : option value;
  runBeforeAsync : option string;
  continueOnError : bool
}.
End Task.

(** [x || ...] on an optional string property. *)
Definition str_truthy (o : option string) : option string :=
  match o with
  | Some s => if String.eqb s "" then None else Some s
  | None => None
  end.

(** ITest. *)
Record test_schema : Type := mkTestSchema {
  ts_description : string;
  ts_tags : option (list string);
  ts_defaults : option value;
  ts_params : option value;
  ts_skip : bool;
  ts_tasks : list Task.t
}.

(** ITestSet. *)
Record set_schema : Type := mkSetSchema {
  ss_name : string;
  ss_tags : option (list string);
  ss_defaults : option value;
  ss_params : option value;
  ss_beforeAll : option (list Task.t);
  ss_afterAll : option (list Task.t);
  ss_beforeEach : option (list Task.t);
  ss_afterEach : option (list Task.t);
  ss_executionOrder : string;
  ss_skip : bool;
  ss_tests : option (list test_schema)
}.

(** ITestEntry.  [skip] is [None] while it is unset (undefined / null). *)
Record test_entry : Type := mkTestEntry {
  te_schema : test_schema;
  te_id : string;
  te_path : list string;
  te_tags : list string;
  te_defaults : value;
  te_params : value;
  te_tasks : list Task.t;
  te_skip : option bool
}.

(** ITestSetEntry; [se_children] is the object keyed by local name. *)
Inductive set_entry : Type := SetEntry {
  se_schema : option set_schema;
  se_id : string;
  se_localName : string;
  se_path : list string;
  se_tags : list string;
  se_defaults : value;
  se_params : value;
  se_beforeEachTasks : list Task.t;
  se_afterEachTasks : list Task.t;
  se_beforeAllTasks : list Task.t;
  se_afterAllTasks : list Task.t;
  se_tests : list test_entry;
  se_children : list (string * set_entry);
  se_skip : option bool
}.

Definition list_or {A} (o : option (list A)) : list A :=
  match o with Some l => l | None => [] end.

Definition value_or_empty (o : option value) : value :=
  match o with Some v => v | None => VObj [] end.

(** [a || b] where [a] may be null and [b] is a boolean. *)
Definition js_or (a : option bool) (b : bool) : option bool :=
  match a with Some true => Some true | _ => Some b end.

(* ------------------------------------------------------------------ *)
(** ** Repository *)

(** The synthetic root entry of the constructor. *)
Definition rootTestSet : set_entry :=
  SetEntry None "$" "$" [] [] (VObj []) (VObj []) [] [] [] [] [] [] (Some false).

(** The placeholder [resolveSetEntry] creates for a missing path segment. *)
Definition new_child (parent : set_entry) (seg : string) : set_entry :=
  SetEntry None (se_id parent ++ "." ++ seg) seg (se_path parent ++ [seg]) [] (VObj []) (VObj [])
           [] [] [] [] [] [] None.

Definition with_children (e : set_entry) (cs : list (string * set_entry)) : set_entry :=
  SetEntry (se_schema e) (se_id e) (se_localName e) (se_path e) (se_tags e) (se_defaults e)
           (se_params e) (se_beforeEachTasks e) (se_afterEachTasks e) (se_beforeAllTasks e)
           (se_afterAllTasks e) (se_tests e) cs (se_skip e).

(** [resolveSetEntry(path)] followed by an update [f] of the entry it
    returns: the chain of entries is walked, and placeholders are created
    where a segment is missing.  (Segments naming Object.prototype members
    are not modelled.) *)
Fixpoint update_at (path : list string) (f : set_entry -> set_entry) (e : set_entry) : set_entry :=
  match path with
  | [] => f e
  | seg :: rest =>
      let child := match js_lookup seg (se_children e) with
                   | Some c => c
                   | None => new_child e seg
                   end in
      with_children e (js_set seg (update_at rest f child) (se_children e))
  end.

(** The test entries [loadTestSet] builds for a document. *)
Definition test_entries (setEntry : set_entry) (tests : list test_schema) : list test_entry :=
  map (fun (it : nat * test_schema) => let (i, t) := it in
         mkTestEntry t (se_id setEntry ++ ".tests[" ++ string_of_nat i ++ "]")
                     (se_path setEntry ++ ["#" ++ string_of_nat i]) [] (VObj []) (VObj [])
                     (ts_tasks t) None)
      (combine (seq 0 (length tests)) tests).

(** [loadTestSet] for a document that passed the schema check; [tasksOk] is
    the verdict of the task-list validations.  The entry is claimed only
    when it is still unclaimed and the tasks are valid; the placeholders on
    the way are created in any case. *)
Definition loadTestSet (root : set_entry) (doc : set_schema) (tasksOk : bool) : set_entry :=
  update_at (js_split_dot (ss_name doc) "")
    (fun e => match se_schema e with
              | Some _ => e
              | None =>
                  if tasksOk then
                    SetEntry (Some doc) (se_id e) (se_localName e) (se_path e) (se_tags e)
                             (se_defaults e) (se_params e) (se_beforeEachTasks e)
                             (se_afterEachTasks e) (se_beforeAllTasks e) (se_afterAllTasks e)
                             (test_entries e (list_or (ss_tests doc))) (se_children e) (se_skip e)
                  else e
              end) root.

Definition build_test (setEntry : set_entry) (t : test_entry) : test_entry :=
  mkTestEntry (te_schema t) (te_id t) (te_path t)
              (se_tags setEntry ++ list_or (ts_tags (te_schema t)))
              (value_or_empty (ts_defaults (te_schema t)))
              (value_or_empty (ts_params (te_schema t)))
              (te_tasks t) (js_or (se_skip setEntry) (ts_skip (te_schema t))).

(** [Repository.buildTestSet(parentEntry, setEntry)]: the entry after the
    call.  The children are built with the updated entry as their parent;
    each child reads only the parent's own fields, so the order in which the
    children are visited does not matter. *)
Fixpoint buildTestSet (parentEntry : option set_entry) (setEntry : set_entry) {struct setEntry}
    : set_entry :=
  match setEntry with
  | SetEntry sch id ln path tags defs params be ae ba aa tests children skip =>
      let e1 :=
        match parentEntry, sch with
        | Some p, Some s =>
            SetEntry sch id ln path
                     (se_tags p ++ list_or (ss_tags s))
                     (value_or_empty (ss_defaults s)) (value_or_empty (ss_params s))
                     (se_beforeEachTasks p ++ list_or (ss_beforeEach s))
                     (se_afterEachTasks p ++ list_or (ss_afterEach s))
                     (list_or (ss_beforeAll s)) (list_or (ss_afterAll s))
                     tests children (js_or (se_skip p) (ss_skip s))
        | _, _ => setEntry
        end in
      let e2 :=
        SetEntry (se_schema e1) (se_id e1) (se_localName e1) (se_path e1) (se_tags e1)
                 (se_defaults e1) (se_params e1) (se_beforeEachTasks e1) (se_afterEachTasks e1)
                 (se_beforeAllTasks e1) (se_afterAllTasks e1)
                 (map (build_test e1) (se_tests e1)) children (se_skip e1) in
      let fix go (l : list (string * set_entry)) : list (string * set_entry) :=
        match l with
        | [] => []
        | (k, c) :: r => (k, buildTestSet (Some e2) c) :: go r
        end in
      with_children e2 (go children)
  end.

(** [Repository.build()]. *)
Definition build (root : set_entry) : set_entry := buildTestSet None root.

(** The entry reached from [e] by a path of local names. *)
Fixpoint find_entry (path : list string) (e : set_entry) : option set_entry :=
  match path with
  | [] => Some e
  | seg :: rest =>
      match js_lookup seg (se_children e) with
      | Some c => find_entry rest c
      | None => None
      end
  end.

(** [c] (a child of [p]) carries [p]'s before/after-each lists followed by
    its own, when a document claims it. *)
Definition inherits_from (p c : set_entry) : Prop :=
  forall s, se_schema c = Some s ->
    se_beforeEachTasks c = (se_beforeEachTasks p ++ list_or (ss_beforeEach s))%list /\
    se_afterEachTasks c = (se_afterEachTasks p ++ list_or (ss_afterEach s))%list.

(** Every claimed entry of the tree inherits from its parent. *)
Fixpoint each_inherits (e : set_entry) : Prop :=
  let fix all (l : list (string * set_entry)) : Prop :=
    match l with
    | [] => True
    | (_, c) :: r => (inherits_from e c /\ each_inherits c) /\ all r
    end in
  all (se_children e).

(** Documents for the examples: a set named [name] with one before-each task. *)
Definition hook_task (tid : string) : Task.t :=
  Task.mk (Some tid) None "echo.say" None None None None false.

Definition hook_doc (name : string) (tid : string) : set_schema :=
  mkSetSchema name None None None None None (Some [hook_task tid]) None "sequential" false None.

(* ------------------------------------------------------------------ *)
(** ** Runner: one task *)

(** [obj[k]] for an own property; anything else reads as undefined
    (Object.prototype members are not modelled here). *)
Definition js_member (v : value) (k : string) : value :=
  match v with
  | VObj m => match js_lookup k m with Some x => x | None => VUndef end
  | _ => VUndef
  end.

(** [x || {}]. *)
Definition or_empty (v : value) : value := if truthy v then v else VObj [].

Definition opt_or_empty (o : option value) : value :=
  match o with Some v => or_empty v | None => VObj [] end.

Definition truthy_opt (o : option value) : bool :=
  match o with Some v => truthy v | None => false end.

Fixpoint index_props {A} (i : nat) (l : list A) : list (string * A) :=
  match l with
  | [] => []
  | x :: r => (string_of_nat i, x) :: index_props (S i) r
  end.

(** The own enumerable properties [Object.assign] copies from a source, in
    property order. *)
Definition own_props (v : value) : list (string * value) :=
  match v with
  | VObj m => flat_map (fun k => match js_lookup k m with Some x => [(k, x)] | None => [] end)
                       (js_keys m)
  | VArr l => index_props 0 l
  | VStr s => index_props 0 (map (fun c => VStr (String c "")) (list_ascii_of_string s))
  | _ => []
  end.

(** [Object.assign(target, src)] on an object target. *)
Definition js_assign (target src : value) : value :=
  match target with
  | VObj m => VObj (fold_left (fun acc kv => js_set (fst kv) (snd kv) acc) (own_props src) m)
  | _ => target
  end.

(** IRunContext. *)
Record run_ctx : Type := mkCtx {
  ctx_defaults : value;
  ctx_params : value
}.

(** ITestTaskReport; [rep_errors] holds the messages of the assertion
    errors, [VNull] stands for a field still null. *)
Record task_report : Type := mkReport {
  rep_task : Task.t;
  rep_label : string;
  rep_runArgs : value;
  rep_expectArgs : value;
  rep_result : value;
  rep_setArgs : value;
  rep_errors : list string
}.

Definition with_errors (r : task_report) (es : list string) : task_report :=
  mkReport (rep_task r) (rep_label r) (rep_runArgs r) (rep_expectArgs r) (rep_result r)
           (rep_setArgs r) es.

(** What the coordinator sees of [runTask]: whether the ready latch
    ([onReady.resolve]) is resolved, whether [cmd.run] is invoked, and the
    report the completion promise resolves to. *)
Record task_run : Type := mkTaskRun {
  tr_ready : bool;
  tr_invoked : bool;
  tr_report : task_report
}.

Definition has_errors (es : list string) : bool :=
  match es with [] => false | _ => true end.

Section RunTask.
(** [JP.value], the [deepmerge] package and the registered modules. *)
Variable JP_value : value -> string -> option value.
Variable deepMerge : value -> value -> value.
Variable modules : registry.

(** The [catch] block: the message is appended to the errors collected so
    far.  The ready latch is left as it is. *)
Definition caught (ready invoked : bool) (r : task_report) (phase msg : string) : task_run :=
  mkTaskRun ready invoked
    (with_errors r (rep_errors r ++ ["Failed to execute task " ++ phase ++ ": " ++ msg])).

(** [Runner.runTask(ctx, task, onReady)]. *)
Definition runTask (ctx : run_ctx) (task : Task.t) : task_run :=
  let report0 := mkReport task (Task.do_ task) VNull VNull VNull VNull [] in
  let cmdArgs := parseCommand (Task.do_ task) in
  match getCommand modules (Task.do_ task) with
  | Throw e => caught false false report0 "validation" e
  | Ok cref =>
  match resolveArgs JP_value (ctx_params ctx) (opt_or_empty (Task.args task)) with
  | None => caught false false report0 "validation" "JSONPath error"
  | Some ra =>
  let runArgs := deepMerge (or_empty (js_member (ctx_defaults ctx) (p_module cmdArgs))) ra in
  let report1 := mkReport task (Task.do_ task) runArgs VNull VNull VNull [] in
  match resolveArgs JP_value (ctx_params ctx) (opt_or_empty (Task.expect task)) with
  | None => caught false false report1 "validation" "JSONPath error"
  | Some expectArgs =>
  let report2 := mkReport task (Task.do_ task) runArgs expectArgs VNull VNull [] in
  match cref with
  | CNull => caught false false report2 "validation"
               "TypeError: Cannot read property 'validateArgs' of null"
  | CProto _ =>
      (* an Object.prototype function: no hooks, no label, no [run] *)
      caught false false report2 "run" "TypeError: cmd.run is not a function"
  | CCmd cmd =>
  let argErrors := match Cmd.validateArgs cmd with Some f => f runArgs | None => [] end in
  let expectErrors := match Cmd.validateExpect cmd with Some f => f expectArgs | None => [] end in
  if has_errors argErrors || has_errors expectErrors then
    mkTaskRun true false
      (with_errors report2
         ((if has_errors argErrors then ["Task has invalid run arguments:"] else []) ++ argErrors ++
          (if has_errors expectErrors then ["Task has invalid expect arguments:"] else []) ++
          expectErrors))
  else
  let label :=
    match str_truthy (Task.description task) with
    | Some d => Some d
    | None => match Cmd.getLabel cmd with
              | Some g => g runArgs expectArgs
              | None => Some (Task.do_ task)
              end
    end in
  match label with
  | None => caught false false report2 "validation" "getLabel failed"
  | Some label =>
  let report3 := mkReport task label runArgs expectArgs VNull VNull [] in
  match Cmd.run cmd with
  | None => caught false false report3 "run" "TypeError: cmd.run is not a function"
  | Some f =>
  let (notify, outcome) := f runArgs in
  match outcome with
  | Rejects err => caught notify true report3 "run" err
  | Resolves result =>
  let errors := match Cmd.expect cmd with
                | Some ex => if truthy_opt (Task.expect task) then ex expectArgs result else []
                | None => []
                end in
  let report4 := mkReport task label runArgs expectArgs result VNull errors in
  if truthy_opt (Task.set task) then
    match resolveArgs JP_value (VObj (own_props result))
                      (match Task.set task with Some v => v | None => VUndef end) with
    | None => caught notify true report4 "set" "JSONPath error"
    | Some setObj =>
        mkTaskRun notify true (mkReport task label runArgs expectArgs result setObj errors)
    end
  else mkTaskRun notify true report4
  end end end end end end end.

End RunTask.

(* ------------------------------------------------------------------ *)
(** ** Runner: task lists *)

(** An entry of [taskMap] (its [completitionPromise] is kept apart, in
    [ex_started]). *)
Record map_entry : Type := mkMapEntry {
  me_task : Task.t;
  me_runOrder : Z;
  me_waitOrder : Z
}.

(** [tasks[i].id || `$_${i}_#`]. *)
Definition task_key (i : nat) (t : Task.t) : string :=
  match str_truthy (Task.id t) with
  | Some s => s
  | None => "$_" ++ string_of_nat i ++ "_#"
  end.

(** The first loop: add tasks to the map (a later task with the same key
    overwrites the entry, which keeps its place in the key order).  The key
    "__proto__" is not modelled. *)
Fixpoint add_tasks (i : nat) (tasks : list Task.t) (m : list (string * map_entry))
    : list (string * map_entry) :=
  match tasks with
  | [] => m
  | t :: rest =>
      add_tasks (S i) rest
        (js_set (task_key i t)
                (mkMapEntry t (Z.of_nat i * 1000) (Z.of_nat i * 1000 + 1)) m)
  end.

(** One iteration of the second loop ("Resolve dependencies").  A missing
    target is [undefined.runOrder], a TypeError; a target that is an
    Object.prototype member would give a NaN order, which is not modelled
    (such task lists do not pass [validateTaskList]). *)
Definition resolve_dep (acc : js_result (list (string * map_entry))) (id : string)
    : js_result (list (string * map_entry)) :=
  match acc with
  | Throw e => Throw e
  | Ok m =>
      match js_lookup id m with
      | None => Ok m
      | Some me =>
          match str_truthy (Task.runBeforeAsync (me_task me)) with
          | None => Ok m
          | Some rba =>
              match js_get m rba with
              | Own target =>
                  Ok (js_set id (mkMapEntry (me_task me) (me_runOrder target - 1)
                                            (me_waitOrder me)) m)
              | Undefined => Throw "TypeError: Cannot read property 'runOrder' of undefined"
              | Inherited _ => Throw "NaN order (not modelled)"
              end
          end
      end
  end.

Definition resolve_deps (m : list (string * map_entry)) : js_result (list (string * map_entry)) :=
  fold_left resolve_dep (js_keys m) (Ok m).

(** A step of [executionPlan]. *)
Inductive plan_step : Type :=
| RunTask (id : string) (order : Z)
| WaitFor (id : string) (order : Z).

Definition step_order (s : plan_step) : Z :=
  match s with RunTask _ o => o | WaitFor _ o => o end.

(** The third loop: a run step and a wait step per key, in key order. *)
Definition make_plan (m : list (string * map_entry)) : list plan_step :=
  flat_map (fun id => match js_lookup id m with
                      | Some me => [RunTask id (me_runOrder me); WaitFor id (me_waitOrder me)]
                      | None => []
                      end) (js_keys m).

(** [executionPlan.sort(...)]: Array.prototype.sort is stable, so steps of
    equal order keep their relative place; insertion sort does the same. *)
Fixpoint insert_step (x : plan_step) (l : list plan_step) : list plan_step :=
  match l with
  | [] => [x]
  | y :: r => if Z.ltb (step_order x) (step_order y) then x :: y :: r else y :: insert_step x r
  end.

Definition sort_plan (l : list plan_step) : list plan_step :=
  fold_left (fun acc x => insert_step x acc) l [].

(** What happens, in order, while a task list executes. *)
Inductive event : Type :=
| EvStart (id : string)      (* runTask called for the task *)
| EvInvoke (id : string)     (* cmd.run invoked *)
| EvReady (id : string)      (* the ready latch resolved *)
| EvComplete (id : string).  (* its report taken at the wait step *)

(** The coordinator's state: [ctx.params], the completion promises of the
    started tasks (keyed like [taskMap]), [taskReports], [errorCount] and
    the events so far. *)
Record exec_state : Type := mkExec {
  ex_params : value;
  ex_started : list (string * task_report);
  ex_reports : list task_report;
  ex_errorCount : nat;
  ex_trace : list event
}.

(** How the execution loop ends: the plan runs out ([Done]); a wait step
    sets [shouldTerminate] and the loop breaks ([Terminated]); a ready
    latch never resolves and the coordinator waits forever ([Stuck]); or
    the async function rejects with a TypeError ([Crashed]). *)
Inductive exec_result : Type :=
| Done (st : exec_state)
| Terminated (st : exec_state)
| Stuck (st : exec_state)
| Crashed (msg : string).

Definition start_events (id : string) (tr : task_run) : list event :=
  [EvStart id] ++ (if tr_invoked tr then [EvInvoke id] else []) ++
  (if tr_ready tr then [EvReady id] else []).

Definition after_run (st : exec_state) (id : string) (tr : task_run) : exec_state :=
  mkExec (ex_params st) (js_set id (tr_report tr) (ex_started st)) (ex_reports st)
         (ex_errorCount st) (ex_trace st ++ start_events id tr).

(** The wait step.  The [set] phase's [Object.assign(ctx.params, setObj)]
    runs when the task's promise settles, which lies between its run step
    and its wait step; it is applied here, when the coordinator observes the
    completion. *)
Definition after_wait (st : exec_state) (id : string) (rep : task_report) : exec_state :=
  mkExec (js_assign (ex_params st) (rep_setArgs rep)) (ex_started st)
         (ex_reports st ++ [rep])
         (if has_errors (rep_errors rep) then S (ex_errorCount st) else ex_errorCount st)
         (ex_trace st ++ [EvComplete id]).

Definition should_terminate (rep : task_report) : bool :=
  has_errors (rep_errors rep) && negb (Task.continueOnError (rep_task rep)).

Section RunTaskList.
Variable JP_value : value -> string -> option value.
Variable deepMerge : value -> value -> value.
Variable modules : registry.

(** The fourth loop ("Execute"). *)
Fixpoint exec (defaults : value) (m : list (string * map_entry)) (plan : list plan_step)
    (st : exec_state) : exec_result :=
  match plan with
  | [] => Done st
  | RunTask id _ :: rest =>
      match js_lookup id m with
      | None => Crashed "TypeError: Cannot read property 'task' of undefined"
      | Some target =>
          let tr := runTask JP_value deepMerge modules (mkCtx defaults (ex_params st))
                            (me_task target) in
          if tr_ready tr then exec defaults m rest (after_run st id tr)
          else Stuck (after_run st id tr)
      end
  | WaitFor id _ :: rest =>
      match js_lookup id (ex_started st) with
      | None => Crashed "TypeError: Cannot read property 'errors' of null"
      | Some rep =>
          if should_terminate rep then Terminated (after_wait st id rep)
          else exec defaults m rest (after_wait st id rep)
      end
  end.

(** [Runner.runTaskList(ctx, testSet, test, tasks)]. *)
Definition runTaskList (ctx : run_ctx) (tasks : list Task.t) : exec_result :=
  match resolve_deps (add_tasks 0 tasks []) with
  | Throw e => Crashed e
  | Ok m => exec (ctx_defaults ctx) m (sort_plan (make_plan m)) (mkExec (ctx_params ctx) [] [] 0 [])
  end.

End RunTaskList.

(** Commands and tasks for the examples: [say] calls [onReady] and
    resolves to its arguments, [silent] resolves without calling [onReady],
    [fail] calls [onReady] and rejects. *)
Definition echo_cmd (notify : bool) (outcome : value -> settle) : Cmd.t :=
  Cmd.mk (VStr "Echo") VUndef VUndef VUndef VUndef None None
         (Some (fun args => (notify, outcome args))) None None [].

Definition example_modules : registry :=
  [("echo", Mod.mk "echo" [("say", echo_cmd true Resolves);
                           ("silent", echo_cmd false Resolves);
                           ("fail", echo_cmd true (fun _ => Rejects "Error: boom"))])].

(** A [deepmerge] for the examples: the own properties of both objects,
    the second one winning. *)
Definition merge_objects (a b : value) : value :=
  match a, b with
  | VObj _, VObj _ => js_assign (js_assign (VObj []) a) b
  | _, _ => b
  end.

Definition mk_task (tid : option string) (cmd : string) (rba : option string) : Task.t :=
  Task.mk tid None cmd None None None rba false.

Definition empty_ctx : run_ctx := mkCtx (VObj []) (VObj []).

Definition example_run (tasks : list Task.t) : exec_result :=
  runTaskList jp_member merge_objects example_modules empty_ctx tasks.


(** The state an execution ends in, when it ends without a TypeError. *)
Definition result_state (r : exec_result) : option exec_state :=
  match r with
  | Done st | Terminated st | Stuck st => Some st
  | Crashed _ => None
  end.

(** Events are emitted only by steps of the plan for the same key. *)
Definition event_of_plan (plan : list plan_step) (ev : event) : Prop :=
  match ev with
  | EvStart k | EvInvoke k | EvReady k => exists o, In (RunTask k o) plan
  | EvComplete k => exists o, In (WaitFor k o) plan
  end.


(** A two-task list for the examples whose first task fails. *)
Definition failing_tasks : list Task.t :=
  [mk_task None "echo.fail" None; mk_task None "echo.say" None].

Definition empty_exec : exec_state := mkExec (VObj []) [] [] 0 [].

(** Steps of a plan that satisfy [p]. *)
Definition count_steps (p : plan_step -> bool) (l : list plan_step) : nat :=
  length (filter p l).

Definition is_run_for (x : string) (s : plan_step) : bool :=
  match s with RunTask k _ => String.eqb k x | WaitFor _ _ => false end.

Definition is_wait_for (x : string) (s : plan_step) : bool :=
  match s with WaitFor k _ => String.eqb k x | RunTask _ _ => false end.

Definition order_le (a b : plan_step) : Prop := (step_order a <= step_order b)%Z.

(** The last task of [tasks] (numbered from [i]) whose key is [k]. *)
Fixpoint last_with_key (i : nat) (tasks : list Task.t) (k : string) : option (nat * Task.t) :=
  match tasks with
  | [] => None
  | t :: rest =>
      match last_with_key (S i) rest k with
      | Some p => Some p
      | None => if String.eqb (task_key i t) k then Some (i, t) else None
      end
  end.

(** [m2] has the keys of [m], in the same order, with the same tasks and
    wait orders. *)
Definition same_shape (m m2 : list (string * map_entry)) : Prop :=
  map fst m2 = map fst m /\
  forall k, option_map me_task (js_lookup k m2) = option_map me_task (js_lookup k m) /\
            option_map me_waitOrder (js_lookup k m2) = option_map me_waitOrder (js_lookup k m).

(** Every task started or reported is the task of an entry of [m]. *)
Definition tasks_from_map (m : list (string * map_entry)) (st : exec_state) : Prop :=
  (forall k rep, js_lookup k (ex_started st) = Some rep ->
     exists me, js_lookup k m = Some me /\ rep_task rep = me_task me) /\
  (forall rep, In rep (ex_reports st) ->
     exists k me, js_lookup k m = Some me /\ rep_task rep = me_task me).

(* ------------------------------------------------------------------ *)
(** ** Repository.validateTaskList *)

(** [tasks[j].id === rba] for some [j]. *)
Definition rba_found (tasks : list Task.t) (r : string) : bool :=
  existsb (fun u => match Task.id u with Some s => String.eqb s r | None => false end) tasks.

Section ValidateTaskList.
(** [Repository.validateTask(doc, taskId, task)]: the command lookup and the
    schema checks of its arguments; the errors it records are kept aside. *)
Variable validateTask : string -> Task.t -> bool.

(** [Repository.validateTaskList(doc, parentId, tasks)]: its verdict and the
    errors it records itself. *)
Definition validateTaskList (parentId : string) (tasks : list Task.t) : bool * list string :=
  fold_left
    (fun (acc : bool * list string) (it : nat * Task.t) =>
       let (i, t) := it in
       let taskId := parentId ++ ".tasks[" ++ string_of_nat i ++ "]" in
       if negb (validateTask taskId t) then (false, snd acc)
       else match str_truthy (Task.runBeforeAsync t) with
            | None => acc
            | Some r =>
                if rba_found tasks r then acc
                else (false, app (snd acc) [taskId ++ ": Task with id '" ++ r ++
                                            "' for runBeforeAsync was not found."])
            end)
    (combine (seq 0 (length tasks)) tasks) (true, []).

End ValidateTaskList.




Definition duplicate_tasks : list Task.t :=
  [mk_task (Some "x") "echo.say" None; mk_task (Some "x") "echo.fail" None].

(* ------------------------------------------------------------------ *)
(** ** Runner.runTest, Runner.runTestSet and Runner.run *)

(** JS numbers as the counters see them: a count, [undefined] (a property
    the object does not have) or [NaN].  [a + b] is a number only when both
    are numbers. *)
Inductive jsnum : Type :=
| JNum (n : nat)
| JUndef
| JNaN.

Definition jplus (a b : jsnum) : jsnum :=
  match a, b with
  | JNum x, JNum y => JNum (x + y)
  | _, _ => JNaN
  end.

(** A [skip] field ([true], [false] or [null]) tested by [if]. *)
Definition skip_truthy (o : option bool) : bool :=
  match o with Some true => true | _ => false end.

(** [childSet.testCount] / [testSets[k].testCount]: an ITestSetEntry has no
    [testCount] property ([Repository] never sets one and the interface does
    not declare one), so the read gives [undefined]. *)
Definition entry_testCount (e : set_entry) : jsnum := JUndef.

(** [ITestReport]. *)
Record test_report : Type := mkTestReport {
  tst_test : test_entry;
  tst_tasks : list task_report;
  tst_beforeTasks : list task_report;
  tst_afterTasks : list task_report;
  tst_errorCount : nat
}.

(** [ITestSetReport]. *)
Inductive set_report : Type := mkSetReport {
  sr_testSet : set_entry;
  sr_tests : list test_report;
  sr_beforeTasks : list task_report;
  sr_afterTasks : list task_report;
  sr_children : list set_report;
  sr_testCount : nat;
  sr_skippedCount : jsnum;
  sr_errorCount : nat
}.

(** [ICompleteReport] ([duration] left out). *)
Record complete_report : Type := mkCompleteReport {
  cr_testSets : list set_report;
  cr_testCount : nat;
  cr_skippedCount : jsnum;
  cr_errorCount : nat
}.

(** A run context as the object [{ params, defaults }]. *)
Definition ctx_value (ctx : run_ctx) : value :=
  VObj [("params", ctx_params ctx); ("defaults", ctx_defaults ctx)].

Definition ctx_of_value (v : value) : run_ctx :=
  mkCtx (js_member v "defaults") (js_member v "params").

(** The list's run when its promise resolves; a list that waits forever
    ([Stuck]) or rejects ([Crashed]) makes the enclosing call never return a
    report, which is [None] below. *)
Definition completed (r : exec_result) : option exec_state :=
  match r with
  | Done st | Terminated st => Some st
  | Stuck _ | Crashed _ => None
  end.

Section RunTests.
Variable JP_value : value -> string -> option value.
Variable deepMerge : value -> value -> value.
Variable modules : registry.

(** [deepMerge(clone(ctx), { defaults, params })] ([clone] copies, which a
    value model does not need). *)
Definition child_ctx (ctx : run_ctx) (defaults params : value) : run_ctx :=
  ctx_of_value (deepMerge (ctx_value ctx) (VObj [("defaults", defaults); ("params", params)])).

(** The task lists of a test or set share one [childCtx]; the [set] phase
    of a list writes into its [params], which the next list reads. *)
Definition next_ctx (ctx : run_ctx) (st : exec_state) : run_ctx :=
  mkCtx (ctx_defaults ctx) (ex_params st).

Definition run_list (ctx : run_ctx) (tasks : list Task.t) : option exec_state :=
  completed (runTaskList JP_value deepMerge modules ctx tasks).

(** [Runner.runTest(ctx, testSet, test)]. *)
Definition runTest (ctx : run_ctx) (testSet : set_entry) (test : test_entry)
    : option test_report :=
  let childCtx := child_ctx ctx (te_defaults test) (te_params test) in
  match run_list childCtx (se_beforeEachTasks testSet) with
  | None => None
  | Some beforeRun =>
      let ctx1 := next_ctx childCtx beforeRun in
      match (if Nat.eqb (ex_errorCount beforeRun) 0 then
               match run_list ctx1 (te_tasks test) with
               | None => None
               | Some testRun => Some (ex_reports testRun, ex_errorCount testRun,
                                       next_ctx ctx1 testRun)
               end
             else Some ([], 0, ctx1)) with
      | None => None
      | Some (tasks, errs, ctx2) =>
          match run_list ctx2 (se_afterEachTasks testSet) with
          | None => None
          | Some afterRun =>
              Some (mkTestReport test tasks (ex_reports beforeRun) (ex_reports afterRun)
                      (ex_errorCount beforeRun + errs + ex_errorCount afterRun))
          end
      end
  end.

(** The "Run tests" loop: the reports of the tests run and the number of
    skipped ones.  Every test is started from the same [childCtx] and works
    on its own clone of it, so running them one after the other gives the
    same reports as running them concurrently. *)
Fixpoint run_tests (ctx : run_ctx) (testSet : set_entry) (tests : list test_entry)
    : option (list test_report * nat) :=
  match tests with
  | [] => Some ([], 0)
  | test :: rest =>
      if skip_truthy (te_skip test) then
        match run_tests ctx testSet rest with
        | None => None
        | Some (rs, k) => Some (rs, S k)
        end
      else
        match runTest ctx testSet test with
        | None => None
        | Some r =>
            match run_tests ctx testSet rest with
            | None => None
            | Some (rs, k) => Some (r :: rs, k)
            end
        end
  end.

(** The loop over child sets of [runTestSet], which is also the loop of
    [run] over the root-level sets: a skipped set adds its [testCount] to
    the skippedCount [sk]; the others are run. *)
Section Children.
Variable runSet : set_entry -> option set_report.

Fixpoint run_children (cs : list (string * set_entry)) (sk : jsnum)
    : option (list set_report * jsnum) :=
  match cs with
  | [] => Some ([], sk)
  | (_, childSet) :: rest =>
      if skip_truthy (se_skip childSet) then
        run_children rest (jplus sk (entry_testCount childSet))
      else
        match runSet childSet with
        | None => None
        | Some r =>
            match run_children rest sk with
            | None => None
            | Some (rs, sk') => Some (r :: rs, sk')
            end
        end
  end.

End Children.

(** [Runner.runTestSet(ctx, testSet)].  The children are visited in the
    order of the association list (for-in puts array-index names first);
    they run concurrently and only the order of [children] in the report
    depends on it. *)
Fixpoint runTestSet (ctx : run_ctx) (testSet : set_entry) {struct testSet}
    : option set_report :=
  match testSet with
  | SetEntry sch id ln path tags defs params be ae ba aa tests children skip =>
      let childCtx := child_ctx ctx defs params in
      match run_list childCtx ba with
      | None => None
      | Some beforeRun =>
          let ctx1 := next_ctx childCtx beforeRun in
          match (if Nat.eqb (ex_errorCount beforeRun) 0 then
                   match run_tests ctx1 testSet tests with
                   | None => None
                   | Some (trs, nskip) =>
                       match run_children (runTestSet ctx1) children (JNum nskip) with
                       | None => None
                       | Some (crs, sk) =>
                           Some (trs, crs,
                                 fold_left (fun acc c => acc + sr_testCount c) crs (length tests),
                                 fold_left (fun acc c => jplus acc (sr_skippedCount c)) crs sk,
                                 fold_left (fun acc c => acc + sr_errorCount c) crs
                                   (fold_left (fun acc t => acc + tst_errorCount t) trs
                                      (ex_errorCount beforeRun)))
                       end
                   end
                 else Some ([], [], length tests, JNum 0, ex_errorCount beforeRun)) with
          | None => None
          | Some (trs, crs, testCount, skippedCount, errorCount) =>
              match run_list ctx1 aa with
              | None => None
              | Some afterRun =>
                  Some (mkSetReport testSet trs (ex_reports beforeRun) (ex_reports afterRun)
                          crs testCount skippedCount (errorCount + ex_errorCount afterRun))
              end
          end
      end
  end.

(** [Runner.run(testSets)] ([duration] left out). *)
Definition run (testSets : list (string * set_entry)) : option complete_report :=
  let defaultCtx := mkCtx (VObj []) (VObj []) in
  match run_children (runTestSet defaultCtx) testSets (JNum 0) with
  | None => None
  | Some (rs, sk) =>
      Some (mkCompleteReport rs
              (fold_left (fun acc c => acc + sr_testCount c) rs 0)
              (fold_left (fun acc c => jplus acc (sr_skippedCount c)) rs sk)
              (fold_left (fun acc c => acc + sr_errorCount c) rs 0))
  end.

End RunTests.

(** Counts over a report tree: task reports with errors, tests run, and
    tests of sets whose [beforeAll] failed (counted in [testCount], but
    neither run nor skipped). *)
Definition failing_count (reps : list task_report) : nat :=
  length (filter (fun r => has_errors (rep_errors r)) reps).

Definition test_failing (t : test_report) : nat :=
  failing_count (tst_beforeTasks t) + failing_count (tst_tasks t) +
  failing_count (tst_afterTasks t).

Fixpoint set_failing (r : set_report) : nat :=
  match r with
  | mkSetReport _ trs bt at_ crs _ _ _ =>
      failing_count bt + list_sum (map test_failing trs) +
      list_sum (map set_failing crs) + failing_count at_
  end.

Fixpoint set_executed (r : set_report) : nat :=
  match r with
  | mkSetReport _ trs _ _ crs _ _ _ => length trs + list_sum (map set_executed crs)
  end.

Fixpoint set_blocked (r : set_report) : nat :=
  match r with
  | mkSetReport ts _ bt _ crs _ _ _ =>
      (if Nat.eqb (failing_count bt) 0 then 0 else length (se_tests ts)) +
      list_sum (map set_blocked crs)
  end.

(** A document "a" with one test, as the repository loads and builds it. *)
Definition example_doc (skip : bool) (beforeAll : list Task.t) : set_schema :=
  mkSetSchema "a" None None None (Some beforeAll) None None None "async" skip
    (Some [mkTestSchema "t" None None None false [mk_task None "echo.say" None]]).

Definition example_tree (skip : bool) (beforeAll : list Task.t) : list (string * set_entry) :=
  se_children (build (loadTestSet rootTestSet (example_doc skip beforeAll) true)).

Definition example_report (skip : bool) (beforeAll : list Task.t) : option complete_report :=
  run jp_member merge_objects example_modules (example_tree skip beforeAll).

(* ------------------------------------------------------------------ *)
(** ** Commands, registries and key counts used by the statements *)






Definition key_count (l : list string) (x : string) : nat := count_occ string_dec l x.

Definition no_rba_at (m : list (string * map_entry)) (k : string) : Prop :=
  exists me, js_lookup k m = Some me /\ str_truthy (Task.runBeforeAsync (me_task me)) = None.

(** Induction over set entries, through the children map. *)
Section EntryInd.
Variable P : set_entry -> Prop.
Hypothesis P_step : forall e, (forall k c, In (k, c) (se_children e) -> P c) -> P e.

Fixpoint set_entry_ind' (e : set_entry) : P e :=
  P_step e
    (match e return forall k c, In (k, c) (se_children e) -> P c with
     | SetEntry _ _ _ _ _ _ _ _ _ _ _ _ cs _ =>
         (fix G (l : list (string * set_entry)) : forall k c, In (k, c) l -> P c :=
            match l return forall k c, In (k, c) l -> P c with
            | [] => fun k c Hin => False_ind _ Hin
            | (k', c') :: r => fun k c Hin =>
                match Hin with
                | or_introl Heq =>
                    match Heq in _ = y return P (snd y) with eq_refl => set_entry_ind' c' end
                | or_intror Hr => G r k c Hr
                end
            end) cs
     end).
End EntryInd.

(* ------------------------------------------------------------------ *)
(** ** Plans, task lists and tests: auxiliary definitions *)

(** The keys of [taskMap] in list order, and its entries as the first loop
    creates them when the keys are distinct. *)
Fixpoint keys_from (i : nat) (tasks : list Task.t) : list string :=
  match tasks with
  | [] => []
  | t :: r => task_key i t :: keys_from (S i) r
  end.

Fixpoint entries_from (i : nat) (tasks : list Task.t) : list (string * map_entry) :=
  match tasks with
  | [] => []
  | t :: r => (task_key i t, mkMapEntry t (Z.of_nat i * 1000) (Z.of_nat i * 1000 + 1))
              :: entries_from (S i) r
  end.

(** The plan that runs and awaits the tasks one after the other. *)
Fixpoint seq_plan_from (i : nat) (tasks : list Task.t) : list plan_step :=
  match tasks with
  | [] => []
  | t :: r => RunTask (task_key i t) (Z.of_nat i * 1000)
              :: WaitFor (task_key i t) (Z.of_nat i * 1000 + 1) :: seq_plan_from (S i) r
  end.

(** Examples for the task-list properties. *)
Definition reversed_id_tasks : list Task.t :=
  [mk_task (Some "2") "echo.say" None; mk_task (Some "1") "echo.say" None].

(** A wait step. *)
Definition is_wait (s : plan_step) : bool :=
  match s with WaitFor _ _ => true | RunTask _ _ => false end.

Definition repeated_key_tasks : list Task.t :=
  [mk_task (Some "x") "echo.say" None; mk_task (Some "y") "echo.say" None;
   mk_task (Some "x") "echo.say" None].

(** A test running [echo.say], and a set whose before-all and before-each
    lists fail. *)
Definition say_test (skip : option bool) : test_entry :=
  mkTestEntry (mkTestSchema "t" None None None false [mk_task None "echo.say" None]) "t" [] []
    (VObj []) (VObj []) [mk_task None "echo.say" None] skip.

Definition failing_before_set : set_entry :=
  SetEntry None "s" "s" [] [] (VObj []) (VObj []) failing_tasks [] failing_tasks []
    [say_test None; say_test (Some true)] [] None.

(* ------------------------------------------------------------------ *)
(** ** Repository: set entries, documents and task validation *)

(** [Repository.resolveSetEntry]: walk the dotted name from [root], taking
    an existing child or a new one for each segment. *)
Fixpoint resolveSetEntry (path : list string) (e : set_entry) : set_entry :=
  match path with
  | [] => e
  | seg :: rest =>
      resolveSetEntry rest (match js_lookup seg (se_children e) with
                            | Some c => c
                            | None => new_child e seg
                            end)
  end.

(** ["." + seg] for each segment of a path. *)
Fixpoint dotted (p : list string) : string :=
  match p with
  | [] => ""
  | seg :: rest => "." ++ seg ++ dotted rest
  end.

(** Every entry reachable from [e] has the id, path and local name of the
    path it is reached by. *)
Definition well_named (e : set_entry) : Prop :=
  forall p c, find_entry p e = Some c ->
    se_id c = se_id e ++ dotted p /\ se_path c = (se_path e ++ p)%list /\
    (forall q seg, p = (q ++ [seg])%list -> se_localName c = seg).

(** The function [loadTestSet] applies to the entry of the document's name:
    an entry that already has a schema is kept; otherwise the document is
    attached when its tasks validated. *)
Definition claim (doc : set_schema) (tasksOk : bool) (e : set_entry) : set_entry :=
  match se_schema e with
  | Some _ => e
  | None =>
      if tasksOk then
        SetEntry (Some doc) (se_id e) (se_localName e) (se_path e) (se_tags e)
                 (se_defaults e) (se_params e) (se_beforeEachTasks e)
                 (se_afterEachTasks e) (se_beforeAllTasks e) (se_afterAllTasks e)
                 (test_entries e (list_or (ss_tests doc))) (se_children e) (se_skip e)
      else e
  end.

(** A function on entries that keeps the names and the children. *)
Definition keeps_names (f : set_entry -> set_entry) : Prop :=
  forall x, se_id (f x) = se_id x /\ se_path (f x) = se_path x /\
            se_localName (f x) = se_localName x /\ se_children (f x) = se_children x.

Section LoadDocuments.
Variable validateTask : string -> Task.t -> bool.

(** The verdicts of [validateTaskList] that [loadTestSet] combines. *)
Definition doc_tasks_ok (id : string) (d : set_schema) : bool :=
  let ok pid l := fst (validateTaskList validateTask pid l) in
  let tests := list_or (ss_tests d) in
  ok (id ++ "#beforeAll") (list_or (ss_beforeAll d)) &&
  ok (id ++ "#afterAll") (list_or (ss_afterAll d)) &&
  ok (id ++ "#beforeEach") (list_or (ss_beforeEach d)) &&
  ok (id ++ "#afterEach") (list_or (ss_afterEach d)) &&
  forallb (fun (it : nat * test_schema) => let (i, t) := it in
             ok (id ++ ".tests[" ++ string_of_nat i ++ "]") (ts_tasks t))
          (combine (seq 0 (length tests)) tests).

(** [loadTestSet] with its return value: [false] when the document is
    invalid, the set is already defined or a task list failed. *)
Definition loadTestSet_checked (root : set_entry) (doc : option set_schema) : set_entry * bool :=
  match doc with
  | None => (root, false)
  | Some d =>
      let e := resolveSetEntry (js_split_dot (ss_name d) "") root in
      let ok := doc_tasks_ok (se_id e) d in
      (loadTestSet root d ok, match se_schema e with Some _ => false | None => ok end)
  end.

Variable schemaValidator : value -> option set_schema.

(** [Repository.loadDocuments]: load each document, collect whether one
    failed, and report the failure unless [ignoreInvalid]. *)
Definition loadDocuments (ignoreInvalid : bool) (docs : list value) (root : set_entry)
    : set_entry * bool :=
  let (root', hasErrors) :=
    fold_left (fun (acc : set_entry * bool) doc =>
                 let (r, h) := acc in
                 let (r', ok) := loadTestSet_checked r (schemaValidator doc) in
                 (r', h || negb ok))
              docs (root, false) in
  (root', hasErrors && negb ignoreInvalid).

End LoadDocuments.

Section ValidateTask.
Variable modules : registry.
Variable ajv_run : value -> value -> bool * string.

(** [Repository.validateTask]: the verdict and the messages pushed to
    [this.errors]; both validators are run on [task.args]. *)
Definition validateTask (id : string) (task : Task.t) : js_result (bool * list string) :=
  match getCommand modules (Task.do_ task) with
  | Throw e => Throw e
  | Ok CNull => Ok (false, [id ++ ": Command '" ++ Task.do_ task ++ "' not found."])
  | Ok (CProto _) => Ok (true, [])
  | Ok (CCmd cmd) =>
      let args := match Task.args task with Some v => v | None => VUndef end in
      let check (validator : value) : list string :=
        if truthy validator then
          let (pass, errs) := ajv_run validator args in
          if pass then [] else [id ++ ": " ++ errs]
        else [] in
      let e1 := check (Cmd._argsValidator cmd) in
      let e2 := check (Cmd._expectValidator cmd) in
      Ok (negb (has_errors e1) && negb (has_errors e2), (e1 ++ e2)%list)
  end.

End ValidateTask.

(* ------------------------------------------------------------------ *)
(** ** ModuleMgr: node modules and the generated schema *)



(** Each module is registered under its own name. *)
Definition names_match (modules : registry) : Prop :=
  forall n md, js_lookup n modules = Some md -> Mod.name md = n.

(** [a || b]. *)
Definition or_value (a b : value) : value := if truthy a then a else b.

Section NodeModules.
Variable ajv_compile : value -> js_result value.
Variable require_json : string -> js_result value.
Variable require_module : string -> js_result Mod.t.
Variable readdir : string -> option (list string).
Variable is_file : string -> option bool.

(** [ModuleMgr.tryLoadNodeModule]: read [package.json]; when it marks a
    dexit module, require its main file and [load] it. Every exception is
    rethrown with the directory and [String(err)] in its message; the
    messages of [require_json] and [require_module] are already
    [String(err)]. *)
Definition tryLoadNodeModule (modules : registry) (path : string) : js_result registry :=
  match
    match require_json (path ++ "/package.json") with
    | Throw e => Throw e
    | Ok pkg =>
        match js_member pkg "dexitModule" with
        | VBool true =>
            let main := path ++ "/" ++ to_js_string (or_value (js_member pkg "main") (VStr "index.js")) in
            match require_module main with
            | Throw e => Throw e
            | Ok md =>
                (* [load] throws [Error] objects: [String(err)] adds the name *)
                match load ajv_compile modules main md with
                | Throw e => Throw ("Error: " ++ e)
                | Ok r => Ok r
                end
            end
        | _ => Ok modules
        end
    end
  with
  | Throw e => Throw ("Failed load module '" ++ path ++ "': " ++ e)
  | Ok r => Ok r
  end.

(** The directories of [path] that contain a [package.json] file. *)
Definition module_list (path : string) : list string :=
  match readdir path with
  | None => []
  | Some files =>
      flat_map (fun f => match is_file (path ++ "/" ++ f ++ "/package.json") with
                         | Some true => [path ++ "/" ++ f]
                         | _ => []
                         end) files
  end.

(** The loop of [loadAllNodeModules]: the first exception ends it. *)
Fixpoint load_all (modules : registry) (l : list string) : registry * option string :=
  match l with
  | [] => (modules, None)
  | p :: rest =>
      match tryLoadNodeModule modules p with
      | Throw e => (modules, Some e)
      | Ok m' => load_all m' rest
      end
  end.

(** [ModuleMgr.loadAllNodeModules]: the registry it leaves and the
    message of the exception it throws, if any. *)
Definition loadAllNodeModules (modules : registry) (path : string) : registry * option string :=
  load_all modules (module_list path).

End NodeModules.

(** A second module to register. *)
Definition math_module : Mod.t := Mod.mk "math" [("add", echo_cmd true Resolves)].

(** A [node_modules] directory with a dexit module [math] and a directory
    whose [package.json] cannot be read. *)
Definition demo_require_json (p : string) : js_result value :=
  if String.eqb p "./node_modules/bad/package.json" then Throw "SyntaxError: Unexpected token"
  else Ok (VObj [("dexitModule", VBool true)]).

Definition demo_load : registry * option string :=
  loadAllNodeModules (fun v => Ok v) demo_require_json (fun _ => Ok math_module)
    (fun _ => Some ["math"; "bad"]) (fun _ => Some true) example_modules "./node_modules".


(* ================================================================== *)
(** * Theorems *)

(** ** Strings and the token scanner *)

Lemma str_app_assoc : forall s1 s2 s3 : string, (s1 ++ s2) ++ s3 = s1 ++ (s2 ++ s3).
Proof. induction s1 as [|c s1 IH]; intros; simpl; [reflexivity|]. rewrite IH. reflexivity. Qed.

Lemma str_app_nil_r : forall s : string, s ++ "" = s.
Proof. induction s as [|c s IH]; simpl; [reflexivity|]. rewrite IH. reflexivity. Qed.

Lemma str_length_app : forall s1 s2, String.length (s1 ++ s2) = String.length s1 + String.length s2.
Proof. induction s1 as [|c s1 IH]; intros; simpl; auto. Qed.

Lemma rev_string_acc : forall s acc, rev_string s acc = rev_string s "" ++ acc.
Proof.
  induction s as [|c s IH]; intros acc; simpl; [reflexivity|].
  rewrite IH, (IH (String c "")), str_app_assoc. reflexivity.
Qed.

Lemma rev_string_app : forall s1 s2 acc,
  rev_string (s1 ++ s2) acc = rev_string s2 (rev_string s1 acc).
Proof. induction s1 as [|c s1 IH]; intros; simpl; auto. Qed.

Lemma rev_string_involutive : forall s, rev_string (rev_string s "") "" = s.
Proof.
  induction s as [|c s IH]; simpl; [reflexivity|].
  rewrite (rev_string_acc s (String c "")), rev_string_app. simpl. rewrite IH. reflexivity.
Qed.

Lemma all_ipol_rev : forall s acc,
  all_ipol s = true -> all_ipol acc = true -> all_ipol (rev_string s acc) = true.
Proof.
  induction s as [|c s IH]; intros acc Hs Hacc; simpl in *; [assumption|].
  apply andb_prop in Hs as [Hc Hs]. apply IH; simpl; auto. rewrite Hc, Hacc. reflexivity.
Qed.

Lemma scan_token_run : forall p acc rest,
  all_ipol p = true ->
  scan (p ++ rest) (SToken acc) = scan rest (SToken (rev_string p acc)).
Proof.
  induction p as [|c p IH]; intros acc rest Hp; simpl in *; [reflexivity|].
  apply andb_prop in Hp as [Hc Hp]. rewrite Hc. apply IH. assumption.
Qed.


Lemma scan_one_token : forall p post,
  ipol_path p = true ->
  scan ("${" ++ p ++ "}" ++ post) SNormal = ("${" ++ p ++ "}") :: scan post SNormal.
Proof.
  intros p post Hp. unfold ipol_path in Hp. apply andb_prop in Hp as [Hne Hp].
  simpl. rewrite scan_token_run by assumption. simpl.
  rewrite rev_string_involutive.
  destruct p as [|c p']; [discriminate|].
  assert (Hacc : String.eqb (rev_string (String c p') "") "" = false).
  { simpl. rewrite rev_string_acc. destruct (rev_string p' "") ; reflexivity. }
  rewrite Hacc. reflexivity.
Qed.

Lemma ipol_matches_token : forall p,
  ipol_path p = true -> ipol_matches ("${" ++ p ++ "}") = ["${" ++ p ++ "}"].
Proof.
  intros p Hp. unfold ipol_matches.
  pose proof (scan_one_token p "" Hp) as H. rewrite !str_app_nil_r in H.
  rewrite H. reflexivity.
Qed.

Lemma prefix_app : forall s1 s2, prefix s1 (s1 ++ s2) = true.
Proof.
  induction s1 as [|c s1 IH]; intros; simpl; [destruct s2; reflexivity|].
  destruct (ascii_dec c c) as [_|n]; [apply IH|congruence].
Qed.

Lemma substring_prefix : forall s1 s2, substring 0 (String.length s1) (s1 ++ s2) = s1.
Proof. intros. apply prefix_correct, prefix_app. Qed.




Lemma token_path_token : forall p, token_path ("${" ++ p ++ "}") = p.
Proof.
  intros p. unfold token_path. rewrite !str_length_app. simpl.
  replace (String.length p + 1 - 1) with (String.length p) by lia.
  apply substring_prefix.
Qed.

Lemma scan_shape : forall s st,
  match st with SToken acc => all_ipol acc = true | _ => True end ->
  Forall (fun tok => exists q, ipol_path q = true /\ tok = "${" ++ q ++ "}") (scan s st).
Proof.
  induction s as [|c s IH]; intros st Hst; simpl; [constructor|].
  destruct st as [| |acc].
  - apply IH. unfold scan_restart. destruct (Ascii.eqb c "$"); exact I.
  - destruct (Ascii.eqb c "{"); apply IH; [reflexivity|].
    unfold scan_restart. destruct (Ascii.eqb c "$"); exact I.
  - destruct (is_ipol_char c) eqn:Hc.
    + apply IH. simpl. rewrite Hc, Hst. reflexivity.
    + destruct (Ascii.eqb c "}" && negb (String.eqb acc "")) eqn:Hb.
      * constructor; [|apply IH; exact I].
        exists (rev_string acc ""). split; [|reflexivity].
        apply andb_prop in Hb as [_ Hne]. unfold ipol_path.
        rewrite (all_ipol_rev acc "") by (assumption || reflexivity).
        destruct acc as [|a acc]; [discriminate|].
        simpl. rewrite rev_string_acc. destruct (rev_string acc ""); reflexivity.
      * apply IH. unfold scan_restart. destruct (Ascii.eqb c "$"); exact I.
Qed.

Lemma fold_interpolate_no_inl : forall JP data args toks acc,
  (forall tok, In tok toks -> args <> tok) ->
  (forall v, acc <> Some (inl v)) ->
  forall v, fold_left (interpolate_step JP data args) toks acc <> Some (inl v).
Proof.
  intros JP data args toks. induction toks as [|tok toks IH]; intros acc Hn Hacc v; simpl.
  - apply Hacc.
  - apply IH; [intros t Ht; apply Hn; right; assumption|].
    intros w. unfold interpolate_step. destruct acc as [[a|res]|].
    + apply Hacc.
    + destruct (JP data ("$." ++ token_path tok)); [|discriminate].
      destruct (String.eqb args tok) eqn:E; [|discriminate].
      apply String.eqb_eq in E. exfalso. apply (Hn tok); [left; reflexivity|assumption].
    + discriminate.
Qed.

(** Exact-token strings: shared by the interpolation theorems. *)
Lemma resolveString_exact : forall JP data p,
  ipol_path p = true ->
  resolveArgs JP data (VStr ("${" ++ p ++ "}")) = JP data ("$." ++ p).
Proof.
  intros JP data p Hp.
  change (resolveString JP data ("${" ++ p ++ "}") = JP data ("$." ++ p)).
  unfold resolveString.
  rewrite ipol_matches_token by assumption. cbn [fold_left]. unfold interpolate_step.
  rewrite token_path_token, String.eqb_refl.
  destruct (JP data ("$." ++ p)); reflexivity.
Qed.

(** Strings that are not one exact token resolve to strings. *)
Lemma resolveString_not_exact : forall JP data s v,
  (forall q, ipol_path q = true -> s <> "${" ++ q ++ "}") ->
  resolveArgs JP data (VStr s) = Some v -> exists r, v = VStr r.
Proof.
  intros JP data s v Hs H. change (resolveString JP data s = Some v) in H.
  unfold resolveString in H.
  destruct (fold_left (interpolate_step JP data s) (ipol_matches s) (Some (inr s)))
    as [[w|res]|] eqn:E.
  - exfalso. eapply fold_interpolate_no_inl; [| |exact E].
    + intros tok Hin. pose proof (scan_shape s SNormal I) as F.
      rewrite Forall_forall in F. destruct (F tok Hin) as (q & Hq & ->). apply Hs, Hq.
    + intros u. discriminate.
  - injection H as <-. eauto.
  - discriminate.
Qed.





(** ** C8 and C4: the Interpolator *)

(** C8: a string that is exactly one [${path}] token resolves to the raw
    value [JP.value(data, "$." + path)] (so its type is kept: against
    [{x: 42}], ["${x}"] gives the number 42); a string that is not exactly
    one token always resolves to a string. *)
Theorem resolveArgs_exact_token_preserves_type : forall JP data p,
  ipol_path p = true ->
  resolveArgs JP data (VStr ("${" ++ p ++ "}")) = JP data ("$." ++ p) /\
  (forall s v, (forall q, ipol_path q = true -> s <> "${" ++ q ++ "}") ->
     resolveArgs JP data (VStr s) = Some v -> exists r, v = VStr r).
Proof.
  intros JP data p Hp. split.
  - apply resolveString_exact. assumption.
  - intros s v Hs H. eapply resolveString_not_exact; eassumption.
Qed.

Lemma resolveArgs_exact_token_preserves_type_witness :
  ipol_path "x" = true /\
  resolveArgs jp_member (VObj [("x", VNum 42)]) (VStr "${x}") = Some (VNum 42).
Proof.
  split; [reflexivity|].
  destruct (resolveArgs_exact_token_preserves_type jp_member (VObj [("x", VNum 42)]) "x"
              eq_refl) as [H _].
  exact H.
Defined.




(** ** C5: parseCommand and getCommand *)







(** ** C9: module registration *)

Lemma js_lookup_set : forall {A} i k (v : A) m,
  js_lookup i (js_set k v m) = if String.eqb i k then Some v else js_lookup i m.
Proof.
  intros A i k v m. induction m as [|[k' v'] m IH]; simpl.
  - reflexivity.
  - destruct (String.eqb k k') eqn:E1; simpl.
    + apply String.eqb_eq in E1. subst k'. destruct (String.eqb i k); reflexivity.
    + rewrite IH. destruct (String.eqb i k') eqn:E2; [|reflexivity].
      apply String.eqb_eq in E2. subst k'.
      destruct (String.eqb i k) eqn:E3; [|reflexivity].
      apply String.eqb_eq in E3. subst k. rewrite String.eqb_refl in E1. discriminate.
Qed.

Lemma js_lookup_in_keys : forall {A} i (c : A) m, js_lookup i m = Some c -> In i (map fst m).
Proof.
  intros A i c m. induction m as [|[k v] m IH]; simpl; [discriminate|].
  destruct (String.eqb i k) eqn:E; [apply String.eqb_eq in E; auto|auto].
Qed.













(* ------------------------------------------------------------------ *)
(** ** Repository.build *)


Lemma each_inherits_unfold e :
  each_inherits e <->
  Forall (fun kc => inherits_from e (snd kc) /\ each_inherits (snd kc)) (se_children e).
Proof.
  destruct e as [sch id ln path tags defs params be ae ba aa tests cs skip].
  simpl. induction cs as [|[k c] r IHr].
  - split; auto.
  - rewrite Forall_cons_iff, <- IHr. simpl. tauto.
Qed.

Lemma buildTestSet_schema p e : se_schema (buildTestSet p e) = se_schema e.
Proof.
  destruct e as [sch id ln path tags defs params be ae ba aa tests cs skip].
  destruct p, sch; reflexivity.
Qed.

Lemma buildTestSet_claimed q e s :
  se_schema e = Some s ->
  se_beforeEachTasks (buildTestSet (Some q) e) = (se_beforeEachTasks q ++ list_or (ss_beforeEach s))%list /\
  se_afterEachTasks (buildTestSet (Some q) e) = (se_afterEachTasks q ++ list_or (ss_afterEach s))%list.
Proof.
  destruct e as [sch id ln path tags defs params be ae ba aa tests cs skip].
  simpl. intros ->. split; reflexivity.
Qed.

Lemma buildTestSet_unclaimed p e :
  se_schema e = None ->
  se_beforeEachTasks (buildTestSet p e) = se_beforeEachTasks e /\
  se_afterEachTasks (buildTestSet p e) = se_afterEachTasks e.
Proof.
  destruct e as [sch id ln path tags defs params be ae ba aa tests cs skip].
  simpl. intros ->. destruct p; split; reflexivity.
Qed.

Lemma build_children_map (f : set_entry -> set_entry) : forall cs,
  (fix go (l : list (string * set_entry)) : list (string * set_entry) :=
     match l with
     | [] => []
     | (k, c) :: r => (k, f c) :: go r
     end) cs = map (fun kc => (fst kc, f (snd kc))) cs.
Proof.
  induction cs as [|[k c] r IHr]; simpl; [reflexivity|]. f_equal. exact IHr.
Qed.

Lemma buildTestSet_children p e :
  exists e2,
    se_children (buildTestSet p e) =
      map (fun kc => (fst kc, buildTestSet (Some e2) (snd kc))) (se_children e) /\
    se_beforeEachTasks e2 = se_beforeEachTasks (buildTestSet p e) /\
    se_afterEachTasks e2 = se_afterEachTasks (buildTestSet p e).
Proof.
  destruct e as [sch id ln path tags defs params be ae ba aa tests cs skip].
  cbv zeta. simpl buildTestSet. simpl se_children.
  eexists. split; [apply build_children_map | split; reflexivity].
Qed.

Lemma each_inherits_buildTestSet : forall e p, each_inherits (buildTestSet p e).
Proof.
  intros e. induction e as [e IH] using set_entry_ind'. intros p.
  apply each_inherits_unfold.
  destruct (buildTestSet_children p e) as [e2 [Hc [Hb Ha]]]. rewrite Hc.
  apply Forall_forall. intros [k c'] Hin.
  apply in_map_iff in Hin. destruct Hin as [[k0 c] [Heq Hin]].
  simpl in Heq. injection Heq as <- <-. simpl. split.
  - intros s Hs. rewrite buildTestSet_schema in Hs.
    rewrite <- Hb, <- Ha. apply buildTestSet_claimed. exact Hs.
  - apply (IH k0 c Hin).
Qed.

(** C6 (counterexample): with documents [a] (before-each [t1]) and
    [a.b.c] (before-each [t2]) and no document [a.b], the placeholder [a.b]
    keeps an empty before-each list, and [a.b.c] gets only [t2], not
    [t1; t2]. *)
Lemma build_placeholder_counterexample :
  let b := build (loadTestSet (loadTestSet rootTestSet (hook_doc "a" "t1") true)
                              (hook_doc "a.b.c" "t2") true) in
  option_map se_beforeEachTasks (find_entry ["a"] b) = Some [hook_task "t1"] /\
  option_map se_schema (find_entry ["a"; "b"] b) = Some None /\
  option_map se_beforeEachTasks (find_entry ["a"; "b"] b) = Some [] /\
  option_map se_beforeEachTasks (find_entry ["a"; "b"; "c"] b) = Some [hook_task "t2"].
Proof. vm_compute. repeat split. Qed.

(** C6 (amended): after [build], every entry a document claims (schema not
    null) has as [beforeEachTasks] its parent's [beforeEachTasks] followed
    by its own [beforeEach] list, and the same for [afterEachTasks];
    an entry no document claims (a placeholder, or the root) keeps the lists
    it had, whoever its parent is. *)
Theorem build_before_after_each_inherited :
  (forall root, each_inherits (build root)) /\
  (forall p e, se_schema e = None ->
     se_beforeEachTasks (buildTestSet p e) = se_beforeEachTasks e /\
     se_afterEachTasks (buildTestSet p e) = se_afterEachTasks e).
Proof.
  split.
  - intros root. apply each_inherits_buildTestSet.
  - apply buildTestSet_unclaimed.
Qed.

Lemma build_before_after_each_inherited_witness :
  se_beforeEachTasks (buildTestSet (Some (new_child rootTestSet "a")) (new_child rootTestSet "b")) = [] /\
  se_afterEachTasks (buildTestSet (Some (new_child rootTestSet "a")) (new_child rootTestSet "b")) = [].
Proof.
  apply (proj2 build_before_after_each_inherited). reflexivity.
Defined.

(* ------------------------------------------------------------------ *)
(** ** The ready latch *)

Lemma caught_ready ready invoked r phase msg :
  tr_ready (caught ready invoked r phase msg) = ready.
Proof. reflexivity. Qed.

(** C1 (code bug): the latch is resolved only in the branch with
    validation errors and by the command's own callback.  A command that
    passes validation and settles without calling [onReady], or a task that
    throws before [cmd.run] (an unknown command, a JSONPath that throws),
    leaves it unresolved, and the coordinator then waits at that run step
    forever. *)
Theorem runTask_unresolved_latch_blocks :
  (forall JP dm mods defaults m id o rest st target,
     js_lookup id m = Some target ->
     tr_ready (runTask JP dm mods (mkCtx defaults (ex_params st)) (me_task target)) = false ->
     exists st', exec JP dm mods defaults m (RunTask id o :: rest) st = Stuck st') /\
  (forall JP dm mods ctx task cmd f,
     getCommand mods (Task.do_ task) = Ok (CCmd cmd) ->
     Cmd.validateArgs cmd = None -> Cmd.validateExpect cmd = None ->
     Cmd.run cmd = Some f -> (forall a, fst (f a) = false) ->
     tr_ready (runTask JP dm mods ctx task) = false) /\
  (forall JP dm mods ctx task,
     getCommand mods (Task.do_ task) = Ok CNull \/
     resolveArgs JP (ctx_params ctx) (opt_or_empty (Task.args task)) = None ->
     tr_ready (runTask JP dm mods ctx task) = false).
Proof.
  split; [|split].
  - intros JP dm mods defaults m id o rest st target Hm Hr.
    simpl. rewrite Hm. cbv zeta. rewrite Hr. eexists. reflexivity.
  - intros JP dm mods ctx task cmd f Hg Hva Hve Hrun Hf.
    unfold runTask. cbv zeta. rewrite Hg.
    destruct (resolveArgs JP _ (opt_or_empty (Task.args task))); [|reflexivity].
    destruct (resolveArgs JP _ (opt_or_empty (Task.expect task))); [|reflexivity].
    rewrite Hva, Hve. simpl.
    destruct (match str_truthy (Task.description task) with
              | Some d => Some d | None => _ end); [|reflexivity].
    rewrite Hrun.
    match goal with |- context [f ?a] =>
      pose proof (Hf a) as Ha; destruct (f a) as [notify outcome] end.
    simpl in Ha. subst notify.
    destruct outcome; [|reflexivity].
    destruct (truthy_opt (Task.set task)); [|reflexivity].
    destruct (resolveArgs JP _ _); reflexivity.
  - intros JP dm mods ctx task [Hg|Hra]; unfold runTask; cbv zeta.
    + rewrite Hg.
      destruct (resolveArgs JP _ (opt_or_empty (Task.args task))); [|reflexivity].
      destruct (resolveArgs JP _ (opt_or_empty (Task.expect task))); reflexivity.
    + destruct (getCommand mods (Task.do_ task)); [|reflexivity].
      rewrite Hra. reflexivity.
Qed.

Lemma runTask_unresolved_latch_blocks_witness :
  tr_ready (runTask jp_member merge_objects example_modules empty_ctx
                    (mk_task (Some "a") "echo.silent" None)) = false.
Proof.
  apply (proj1 (proj2 runTask_unresolved_latch_blocks) jp_member merge_objects example_modules
           empty_ctx (mk_task (Some "a") "echo.silent" None) (echo_cmd false Resolves)
           (fun args => (false, Resolves args))); try reflexivity.
Defined.

(** C1 (failing inputs): a list whose first task's command settles without
    calling [onReady]; a task whose arguments hold a JSONPath that throws;
    a task naming an unknown command.  In each the coordinator blocks at the
    first run step and the second task is never started. *)
Lemma runTaskList_deadlock_counterexample :
  (exists st, example_run [mk_task (Some "a") "echo.silent" None; mk_task (Some "b") "echo.say" None]
                = Stuck st /\ ex_trace st = [EvStart "a"; EvInvoke "a"]) /\
  (exists st, example_run [Task.mk (Some "a") None "echo.say" (Some (VObj [("x", VStr "${a[0}")]))
                                   None None None false;
                           mk_task (Some "b") "echo.say" None]
                = Stuck st /\ ex_trace st = [EvStart "a"]) /\
  (exists st, example_run [mk_task (Some "a") "echo.shout" None; mk_task (Some "b") "echo.say" None]
                = Stuck st /\ ex_trace st = [EvStart "a"]).
Proof. vm_compute. repeat split; eexists; split; reflexivity. Qed.

(* ------------------------------------------------------------------ *)
(** ** The execution loop *)

Local Open Scope list_scope.

Lemma exec_app JP dm mods defaults m : forall p1 p2 st,
  exec JP dm mods defaults m (p1 ++ p2)%list st =
  match exec JP dm mods defaults m p1 st with
  | Done st' => exec JP dm mods defaults m p2 st'
  | r => r
  end.
Proof.
  induction p1 as [|[id o|id o] p1 IH]; intros p2 st; simpl; [reflexivity| |].
  - destruct (js_lookup id m); [|reflexivity].
    destruct (tr_ready _); [apply IH|reflexivity].
  - destruct (js_lookup id (ex_started st)); [|reflexivity].
    destruct (should_terminate t); [reflexivity|apply IH].
Qed.

Lemma event_of_plan_cons plan x ev : event_of_plan plan ev -> event_of_plan (x :: plan) ev.
Proof. destruct ev; simpl; intros [o H]; exists o; auto. Qed.

Lemma exec_trace_ext JP dm mods defaults m : forall plan st r st',
  exec JP dm mods defaults m plan st = r -> result_state r = Some st' ->
  exists evs, ex_trace st' = (ex_trace st ++ evs)%list /\ Forall (event_of_plan plan) evs.
Proof.
  induction plan as [|[id o|id o] plan IH]; intros st r st' Hr Hs; simpl in Hr.
  - subst r. injection Hs as <-. exists []. rewrite app_nil_r. auto.
  - destruct (js_lookup id m) as [target|]; [|subst r; discriminate].
    set (tr := runTask _ _ _ _ _) in Hr.
    assert (Hev : Forall (event_of_plan (RunTask id o :: plan)) (start_events id tr)).
    { unfold start_events. destruct (tr_invoked tr), (tr_ready tr); simpl;
        repeat (apply Forall_cons; [exists o; left; reflexivity|]); apply Forall_nil. }
    destruct (tr_ready tr) eqn:Er.
    + destruct (IH _ _ _ Hr Hs) as [evs [He Hf]].
      exists (start_events id tr ++ evs). rewrite He. cbn [after_run ex_trace].
      rewrite <- app_assoc. split; [reflexivity|]. apply Forall_app. split; [exact Hev|].
      eapply Forall_impl; [|exact Hf]. intros; apply event_of_plan_cons; assumption.
    + subst r. injection Hs as <-. exists (start_events id tr). split; [reflexivity|exact Hev].
  - destruct (js_lookup id (ex_started st)) as [rep|]; [|subst r; discriminate].
    assert (Hev : Forall (event_of_plan (WaitFor id o :: plan)) [EvComplete id]).
    { constructor; [exists o; left; reflexivity|constructor]. }
    destruct (should_terminate rep).
    + subst r. injection Hs as <-. exists [EvComplete id]. split; [reflexivity|exact Hev].
    + destruct (IH _ _ _ Hr Hs) as [evs [He Hf]].
      exists (EvComplete id :: evs). rewrite He. cbn [after_wait ex_trace].
      rewrite <- app_assoc. split; [reflexivity|]. constructor; [exists o; left; reflexivity|].
      eapply Forall_impl; [|exact Hf]. intros; apply event_of_plan_cons; assumption.
Qed.


Lemma exec_done_completes JP dm mods defaults m : forall p st0 st,
  exec JP dm mods defaults m p st0 = Done st ->
  forall id o, In (WaitFor id o) p -> In (EvComplete id) (ex_trace st).
Proof.
  induction p as [|[k ko|k ko] p IH]; intros st0 st H id o Hin; [destruct Hin| |].
  - destruct Hin as [Hin|Hin]; [discriminate|]. simpl in H.
    destruct (js_lookup k m); [|discriminate].
    destruct (tr_ready _); [|discriminate]. eapply IH; eauto.
  - simpl in H. destruct (js_lookup k (ex_started st0)) as [rep|]; [|discriminate].
    destruct (should_terminate rep); [discriminate|].
    destruct Hin as [Hin|Hin]; [|eapply IH; eauto].
    injection Hin as <- <-.
    destruct (exec_trace_ext JP dm mods defaults m p _ _ st H eq_refl) as [evs [He _]].
    rewrite He. cbn [after_wait ex_trace]. apply in_or_app. left.
    apply in_or_app. right. left. reflexivity.
Qed.

(** C7: once a wait step takes a report with errors whose task has
    [continueOnError] false, the execution ends right there: the result is
    the state after that wait step whatever steps follow it in the plan, its
    reports are those collected before plus this one, and every wait step
    before it has taken its task's report. *)
Theorem exec_stops_after_failed_wait :
  forall JP dm mods defaults m p1 id o p2 st0 st rep,
    exec JP dm mods defaults m p1 st0 = Done st ->
    js_lookup id (ex_started st) = Some rep ->
    rep_errors rep <> [] ->
    Task.continueOnError (rep_task rep) = false ->
    exec JP dm mods defaults m (p1 ++ WaitFor id o :: p2) st0 = Terminated (after_wait st id rep) /\
    ex_reports (after_wait st id rep) = ex_reports st ++ [rep] /\
    ex_trace (after_wait st id rep) = ex_trace st ++ [EvComplete id] /\
    (forall id' o', In (WaitFor id' o') p1 -> In (EvComplete id') (ex_trace st)).
Proof.
  intros JP dm mods defaults m p1 id o p2 st0 st rep H1 Hl He Hc.
  split; [|split; [reflexivity|split; [reflexivity|]]].
  - rewrite exec_app, H1. simpl. rewrite Hl.
    unfold should_terminate. rewrite Hc.
    destruct (rep_errors rep); [congruence|reflexivity].
  - eapply exec_done_completes; eauto.
Qed.

Lemma exec_stops_after_failed_wait_witness :
  exists st rep,
    exec jp_member merge_objects example_modules (VObj []) (add_tasks 0 failing_tasks [])
         ([RunTask "$_0_#" 0] ++ WaitFor "$_0_#" 1 :: [RunTask "$_1_#" 1000; WaitFor "$_1_#" 1001])
         empty_exec = Terminated (after_wait st "$_0_#" rep).
Proof.
  do 2 eexists.
  refine (proj1 (exec_stops_after_failed_wait jp_member merge_objects example_modules (VObj [])
                   (add_tasks 0 failing_tasks []) [RunTask "$_0_#" 0] "$_0_#" 1
                   [RunTask "$_1_#" 1000; WaitFor "$_1_#" 1001] empty_exec _ _ _ _ _ _));
    [reflexivity|reflexivity|discriminate|reflexivity].
Defined.

(* ------------------------------------------------------------------ *)
(** ** The sorted plan *)

Lemma count_insert_step p x : forall l,
  count_steps p (insert_step x l) = count_steps p (x :: l).
Proof.
  unfold count_steps. induction l as [|y r IH]; [reflexivity|].
  simpl insert_step. destruct (Z.ltb (step_order x) (step_order y)); [reflexivity|].
  simpl filter. simpl filter in IH.
  destruct (p y), (p x); simpl in *; rewrite ?IH; reflexivity.
Qed.

Lemma count_sort_fold p : forall l acc,
  count_steps p (fold_left (fun acc x => insert_step x acc) l acc) =
  count_steps p l + count_steps p acc.
Proof.
  unfold count_steps. induction l as [|x r IH]; intros acc; [reflexivity|].
  simpl fold_left. rewrite IH. fold (count_steps p (insert_step x acc)).
  rewrite count_insert_step. unfold count_steps. simpl.
  destruct (p x); simpl; lia.
Qed.

Lemma count_sort_plan p l : count_steps p (sort_plan l) = count_steps p l.
Proof. unfold sort_plan. rewrite count_sort_fold. simpl. unfold count_steps at 2. simpl. lia. Qed.

Lemma in_insert_step x z : forall l, In z (insert_step x l) <-> z = x \/ In z l.
Proof.
  induction l as [|y r IH]; simpl; [intuition congruence|].
  destruct (Z.ltb (step_order x) (step_order y)); simpl; [intuition congruence|].
  rewrite IH. intuition congruence.
Qed.



Lemma insert_step_sorted x : forall l,
  StronglySorted order_le l -> StronglySorted order_le (insert_step x l).
Proof.
  induction l as [|y r IH]; intros H; simpl.
  - repeat constructor.
  - inversion H as [|? ? Hr Hf]; subst.
    destruct (Z.ltb (step_order x) (step_order y)) eqn:E.
    + apply Z.ltb_lt in E. constructor; [exact H|]. constructor; [unfold order_le; lia|].
      eapply Forall_impl; [|exact Hf]. unfold order_le. intros; lia.
    + apply Z.ltb_ge in E. constructor; [apply IH; exact Hr|].
      apply Forall_forall. intros z Hz. apply in_insert_step in Hz as [->|Hz].
      * unfold order_le. lia.
      * rewrite Forall_forall in Hf. apply Hf, Hz.
Qed.

Lemma sort_plan_sorted l : StronglySorted order_le (sort_plan l).
Proof.
  unfold sort_plan. assert (H : StronglySorted order_le []) by constructor.
  revert H. generalize (@nil plan_step). induction l as [|x r IH]; intros acc H; simpl; [exact H|].
  apply IH, insert_step_sorted, H.
Qed.


(* ------------------------------------------------------------------ *)
(** ** Keys of a map *)

Lemma insert_index_count x k : forall l,
  key_count (map snd (insert_index k l)) x =
  key_count (map snd l) x + (if string_dec (snd k) x then 1 else 0).
Proof.
  unfold key_count. induction l as [|y r IH]; simpl.
  - destruct (string_dec (snd k) x); reflexivity.
  - destruct (N.leb (fst k) (fst y)); simpl.
    + destruct (string_dec (snd k) x), (string_dec (snd y) x); lia.
    + rewrite IH. destruct (string_dec (snd k) x), (string_dec (snd y) x); lia.
Qed.

Lemma js_keys_fold_count {A} x : forall (m : list (string * A)) acc,
  key_count (map snd (fold_left (fun acc kv => match array_index (fst kv) with
                                              | Some n => insert_index (n, fst kv) acc
                                              | None => acc end) m acc)) x =
  key_count (map snd acc) x +
  key_count (map fst (filter (fun kv => match array_index (fst kv) with
                                        | Some _ => true | None => false end) m)) x.
Proof.
  induction m as [|[k v] r IH]; intros acc; simpl; [lia|].
  rewrite IH. destruct (array_index k); simpl; [|reflexivity].
  rewrite insert_index_count. unfold key_count. simpl. destruct (string_dec k x); lia.
Qed.

Lemma js_keys_count {A} (m : list (string * A)) x :
  key_count (js_keys m) x = key_count (map fst m) x.
Proof.
  unfold js_keys. cbv zeta. unfold key_count at 1. rewrite count_occ_app.
  fold (key_count (map snd (fold_left (fun acc kv => match array_index (fst kv) with
                                              | Some n => insert_index (n, fst kv) acc
                                              | None => acc end) m [])) x).
  rewrite js_keys_fold_count. simpl. unfold key_count.
  induction m as [|[k v] r IH]; simpl; [reflexivity|].
  destruct (array_index k); simpl; destruct (string_dec k x); lia.
Qed.


Lemma js_keys_sound {A} (m : list (string * A)) k : In k (js_keys m) -> In k (map fst m).
Proof.
  rewrite !(count_occ_In string_dec).
  pose proof (js_keys_count m k) as E. unfold key_count in E. rewrite E. auto.
Qed.

Lemma js_lookup_complete {A} (m : list (string * A)) k :
  In k (map fst m) -> exists v, js_lookup k m = Some v.
Proof.
  induction m as [|[k' v] r IH]; simpl; [tauto|]. intros [<-|H].
  - rewrite String.eqb_refl. eauto.
  - destruct (String.eqb k k'); eauto.
Qed.

Lemma js_set_keys_in {A} k (v : A) z : forall m,
  In z (map fst (js_set k v m)) <-> z = k \/ In z (map fst m).
Proof.
  induction m as [|[k' v'] r IH]; simpl; [intuition congruence|].
  destruct (String.eqb k k') eqn:E; simpl.
  - apply String.eqb_eq in E. subst k'. intuition congruence.
  - rewrite IH. intuition congruence.
Qed.

Lemma js_set_NoDup {A} k (v : A) : forall m,
  NoDup (map fst m) -> NoDup (map fst (js_set k v m)).
Proof.
  induction m as [|[k' v'] r IH]; simpl; intros H.
  - repeat constructor. simpl. tauto.
  - inversion H as [|? ? Hn Hd]; subst.
    destruct (String.eqb k k') eqn:E; simpl.
    + apply String.eqb_eq in E. subst k'. constructor; assumption.
    + constructor; [|apply IH, Hd]. rewrite js_set_keys_in. intros [->|Hin]; [|tauto].
      rewrite String.eqb_refl in E. discriminate.
Qed.

Lemma js_set_existing_keys {A} k (v : A) : forall m,
  In k (map fst m) -> map fst (js_set k v m) = map fst m.
Proof.
  induction m as [|[k' v'] r IH]; simpl; [tauto|]. intros H.
  destruct (String.eqb k k') eqn:E; simpl.
  - apply String.eqb_eq in E. subst. reflexivity.
  - f_equal. apply IH. destruct H as [->|H]; [rewrite String.eqb_refl in E; discriminate|exact H].
Qed.

Lemma js_keys_fst {A B} : forall (m : list (string * A)) (m' : list (string * B)),
  map fst m = map fst m' -> js_keys m = js_keys m'.
Proof.
  intros m m' H. unfold js_keys. f_equal.
  - f_equal. generalize (@nil (N * string)). revert m' H.
    induction m as [|[k v] r IH]; intros [|[k' v'] r'] H acc; simpl in H; try discriminate.
    + reflexivity.
    + injection H as <- H. simpl. apply IH, H.
  - revert m' H. induction m as [|[k v] r IH]; intros [|[k' v'] r'] H; simpl in H; try discriminate.
    + reflexivity.
    + injection H as <- H. simpl. destruct (array_index k); simpl; rewrite (IH r' H); reflexivity.
Qed.

Lemma add_tasks_NoDup : forall tasks i m,
  NoDup (map fst m) -> NoDup (map fst (add_tasks i tasks m)).
Proof.
  induction tasks as [|t r IH]; intros i m H; simpl; [exact H|].
  apply IH, js_set_NoDup, H.
Qed.

Lemma make_plan_count m x :
  count_steps (is_run_for x) (make_plan m) = key_count (map fst m) x /\
  count_steps (is_wait_for x) (make_plan m) = key_count (map fst m) x.
Proof.
  rewrite <- js_keys_count. unfold make_plan.
  assert (H : forall k, In k (js_keys m) -> exists v, js_lookup k m = Some v)
    by (intros k Hk; apply js_lookup_complete, js_keys_sound, Hk).
  revert H. generalize (js_keys m) as ks.
  induction ks as [|a ks IH]; intros H; simpl; [split; reflexivity|].
  destruct (H a (or_introl eq_refl)) as [v Hv]. rewrite Hv.
  destruct IH as [IH1 IH2]; [intros; apply H; right; assumption|].
  unfold count_steps in *. unfold key_count in *. simpl.
  destruct (string_dec a x) as [<-|Hn].
  - rewrite String.eqb_refl. simpl. rewrite IH1, IH2. split; reflexivity.
  - rewrite (proj2 (String.eqb_neq a x) Hn). split; assumption.
Qed.


Lemma add_tasks_lookup : forall tasks i m k,
  js_lookup k (add_tasks i tasks m) =
  match last_with_key i tasks k with
  | Some (j, t) => Some (mkMapEntry t (Z.of_nat j * 1000) (Z.of_nat j * 1000 + 1))
  | None => js_lookup k m
  end.
Proof.
  induction tasks as [|t r IH]; intros i m k; simpl; [reflexivity|].
  rewrite IH. destruct (last_with_key (S i) r k) as [[j t']|]; [reflexivity|].
  rewrite js_lookup_set. rewrite String.eqb_sym. destruct (String.eqb (task_key i t) k); reflexivity.
Qed.

Lemma last_with_key_none : forall tasks i k,
  (forall n t, nth_error tasks n = Some t -> task_key (i + n) t <> k) ->
  last_with_key i tasks k = None.
Proof.
  induction tasks as [|t r IH]; intros i k H; simpl; [reflexivity|].
  rewrite IH.
  - destruct (String.eqb (task_key i t) k) eqn:E; [|reflexivity].
    apply String.eqb_eq in E. exfalso. apply (H 0 t); [reflexivity|]. rewrite Nat.add_0_r. exact E.
  - intros n t' Hn. replace (S i + n) with (i + S n) by lia. apply (H (S n)). exact Hn.
Qed.

Lemma last_with_key_spec : forall tasks i n t k,
  nth_error tasks n = Some t -> task_key (i + n) t = k ->
  (forall n' t', n < n' -> nth_error tasks n' = Some t' -> task_key (i + n') t' <> k) ->
  last_with_key i tasks k = Some (i + n, t).
Proof.
  induction tasks as [|t0 r IH]; intros i n t k Hn Hk Hl; [destruct n; discriminate|].
  destruct n as [|n]; simpl in Hn.
  - injection Hn as <-. simpl. rewrite last_with_key_none.
    + rewrite Nat.add_0_r in Hk |- *. rewrite Hk, String.eqb_refl. reflexivity.
    + intros n' t' Hn'. replace (S i + n') with (i + S n') by lia. apply (Hl (S n')); [lia|exact Hn'].
  - simpl. rewrite (IH (S i) n t k Hn).
    + replace (S i + n) with (i + S n) by lia. reflexivity.
    + replace (S i + n) with (i + S n) by lia. exact Hk.
    + intros n' t' Hlt Hn'. replace (S i + n') with (i + S n') by lia. apply (Hl (S n')); [lia|exact Hn'].
Qed.

Lemma last_with_key_sound : forall tasks i k j t,
  last_with_key i tasks k = Some (j, t) ->
  exists n, nth_error tasks n = Some t /\ j = i + n /\ task_key j t = k.
Proof.
  induction tasks as [|t0 r IH]; intros i k j t H; simpl in H; [discriminate|].
  destruct (last_with_key (S i) r k) as [[j' t']|] eqn:E.
  - injection H as <- <-. destruct (IH _ _ _ _ E) as [n [Hn [-> Hk]]].
    exists (S n). split; [exact Hn|split; [lia|exact Hk]].
  - destruct (String.eqb (task_key i t0) k) eqn:Ek; [|discriminate].
    injection H as <- <-. exists 0. apply String.eqb_eq in Ek.
    split; [reflexivity|split; [lia|exact Ek]].
Qed.

(* ------------------------------------------------------------------ *)
(** ** Resolving dependencies *)

Lemma resolve_fold_throw : forall ks e, fold_left resolve_dep ks (Throw e) = Throw e.
Proof. induction ks as [|k ks IH]; intros e; simpl; [reflexivity|apply IH]. Qed.

Lemma same_shape_refl m : same_shape m m.
Proof. split; [reflexivity|intros; split; reflexivity]. Qed.

Lemma same_shape_trans m1 m2 m3 : same_shape m1 m2 -> same_shape m2 m3 -> same_shape m1 m3.
Proof.
  intros [K1 L1] [K2 L2]. split; [congruence|].
  intros k. destruct (L1 k), (L2 k). split; congruence.
Qed.

Lemma resolve_dep_ok m id m2 :
  resolve_dep (Ok m) id = Ok m2 ->
  same_shape m m2 /\
  (forall k, k <> id \/ no_rba_at m k -> js_lookup k m2 = js_lookup k m).
Proof.
  unfold resolve_dep. destruct (js_lookup id m) as [me|] eqn:Hid.
  2:{ intros H. injection H as <-. split; [apply same_shape_refl|reflexivity]. }
  destruct (str_truthy (Task.runBeforeAsync (me_task me))) as [r|] eqn:Hr.
  2:{ intros H. injection H as <-. split; [apply same_shape_refl|reflexivity]. }
  destruct (js_get m r) as [target| |]; try discriminate.
  intros H. injection H as <-. split; [split|].
  - apply js_set_existing_keys. eapply js_lookup_in_keys. exact Hid.
  - intros k. rewrite js_lookup_set. destruct (String.eqb k id) eqn:E; [|split; reflexivity].
    apply String.eqb_eq in E. subst k. rewrite Hid. split; reflexivity.
  - intros k Hk. rewrite js_lookup_set. destruct (String.eqb k id) eqn:E; [|reflexivity].
    apply String.eqb_eq in E. subst k. exfalso.
    destruct Hk as [Hk|[me' [Hl Hn]]]; [congruence|]. rewrite Hid in Hl. injection Hl as <-.
    congruence.
Qed.

Lemma resolve_fold_ok : forall ks m m',
  fold_left resolve_dep ks (Ok m) = Ok m' ->
  same_shape m m' /\
  (forall k, ~ In k ks \/ no_rba_at m k -> js_lookup k m' = js_lookup k m).
Proof.
  induction ks as [|a ks IH]; intros m m' H; cbn [fold_left] in H.
  - injection H as <-. split; [apply same_shape_refl|reflexivity].
  - destruct (resolve_dep (Ok m) a) as [m2|e] eqn:E.
    2:{ rewrite resolve_fold_throw in H. discriminate. }
    destruct (resolve_dep_ok _ _ _ E) as [S1 K1].
    destruct (IH _ _ H) as [S2 K2]. split; [eapply same_shape_trans; eauto|].
    intros k Hk. assert (Hm2 : js_lookup k m2 = js_lookup k m).
    { apply K1. destruct Hk as [Hk|Hk]; [left; intros ->; apply Hk; left; reflexivity|right; exact Hk]. }
    rewrite <- Hm2. apply K2. destruct Hk as [Hk|[me [Hl Hn]]].
    + left. intros Hin. apply Hk. right. exact Hin.
    + right. exists me. rewrite Hm2. auto.
Qed.

Lemma resolve_deps_shape m m' : resolve_deps m = Ok m' -> same_shape m m'.
Proof. intros H. apply (resolve_fold_ok _ _ _ H). Qed.

(* ------------------------------------------------------------------ *)
(** ** Which tasks run *)

Lemma runTask_task JP dm mods ctx task : rep_task (tr_report (runTask JP dm mods ctx task)) = task.
Proof.
  unfold runTask, caught. cbv zeta.
  repeat match goal with
         | |- context [match ?x with _ => _ end] => destruct x
         end; reflexivity.
Qed.

Lemma exec_tasks_from_map JP dm mods defaults m : forall plan st r st',
  tasks_from_map m st -> exec JP dm mods defaults m plan st = r -> result_state r = Some st' ->
  tasks_from_map m st'.
Proof.
  induction plan as [|[id o|id o] plan IH]; intros st r st' Hinv Hr Hs; simpl in Hr.
  - subst r. injection Hs as <-. exact Hinv.
  - destruct (js_lookup id m) as [target|] eqn:Ht; [|subst r; discriminate].
    set (tr := runTask _ _ _ _ _) in Hr.
    assert (Hinv' : tasks_from_map m (after_run st id tr)).
    { destruct Hinv as [H1 H2]. split; [|exact H2].
      intros k rep. cbn [after_run ex_started]. rewrite js_lookup_set.
      destruct (String.eqb k id) eqn:E; [|apply H1].
      intros Hr'. injection Hr' as <-. apply String.eqb_eq in E. subst k.
      exists target. split; [exact Ht|]. apply runTask_task. }
    destruct (tr_ready tr); [eapply IH; eauto|subst r; injection Hs as <-; exact Hinv'].
  - destruct (js_lookup id (ex_started st)) as [rep|] eqn:Hl; [|subst r; discriminate].
    assert (Hinv' : tasks_from_map m (after_wait st id rep)).
    { destruct Hinv as [H1 H2]. split; [exact H1|].
      intros rep' Hin. cbn [after_wait ex_reports] in Hin. apply in_app_or in Hin as [Hin|[<-|[]]].
      - apply H2, Hin.
      - destruct (H1 _ _ Hl) as [me [Hm He]]. eauto. }
    destruct (should_terminate rep); [subst r; injection Hs as <-; exact Hinv'|eapply IH; eauto].
Qed.

Lemma validateTaskList_ok vt parentId tasks :
  (forall tid t, In t tasks -> vt tid t = true) ->
  (forall t r, In t tasks -> str_truthy (Task.runBeforeAsync t) = Some r -> rba_found tasks r = true) ->
  validateTaskList vt parentId tasks = (true, []).
Proof.
  intros Hv Hr. unfold validateTaskList.
  assert (Hin : forall i t, In (i, t) (combine (seq 0 (length tasks)) tasks) -> In t tasks)
    by (intros i t H; eapply in_combine_r; exact H).
  revert Hin. generalize (combine (seq 0 (length tasks)) tasks) as l.
  induction l as [|[i t] l IH]; intros Hin; simpl; [reflexivity|].
  rewrite (Hv _ t (Hin i t (or_introl eq_refl))). simpl.
  destruct (str_truthy (Task.runBeforeAsync t)) as [r|] eqn:E.
  - rewrite (Hr t r (Hin i t (or_introl eq_refl)) E). apply IH. intros; eapply Hin; right; eassumption.
  - apply IH. intros; eapply Hin; right; eassumption.
Qed.

Lemma tasks_from_map_init m p : tasks_from_map m (mkExec p [] [] 0 []).
Proof. split; simpl; [discriminate|tauto]. Qed.

Lemma task_key_truthy i t x : str_truthy (Task.id t) = Some x -> task_key i t = x.
Proof. intros H. unfold task_key. rewrite H. reflexivity. Qed.

Lemma add_tasks_only_last tasks ti tj x m' :
  str_truthy (Task.id ti) = Some x ->
  (forall me, js_lookup x (add_tasks 0 tasks []) = Some me -> me_task me = tj) ->
  same_shape (add_tasks 0 tasks []) m' ->
  forall k me, js_lookup k m' = Some me -> me_task me = ti -> ti = tj.
Proof.
  intros Hx Hlast [_ Hs] k me Hk Ht.
  destruct (Hs k) as [Htask _]. rewrite Hk in Htask. simpl in Htask.
  rewrite add_tasks_lookup in Htask.
  destruct (last_with_key 0 tasks k) as [[j' t']|] eqn:El; [|discriminate].
  simpl in Htask. injection Htask as Htask.
  destruct (last_with_key_sound _ _ _ _ _ El) as [n [_ [_ Hkey]]].
  assert (Et : t' = ti) by congruence. rewrite Et in Hkey.
  rewrite (task_key_truthy _ _ _ Hx) in Hkey. subst k.
  assert (Hl2 := Hlast (mkMapEntry t' (Z.of_nat j' * 1000) (Z.of_nat j' * 1000 + 1))).
  rewrite add_tasks_lookup, El in Hl2. specialize (Hl2 eq_refl). simpl in Hl2. congruence.
Qed.

(** C10: with two tasks of the same explicit id [x], the map entry for [x]
    holds the last such task, with that task's orders; the plan has exactly
    one run step and one wait step for [x]; an earlier task with that id is
    never started and has no report (unless it is the very same task); and
    [validateTaskList] raises nothing about the duplicate: when every task
    passes [validateTask] and every [runBeforeAsync] names an existing id it
    returns true and records no error. *)
Theorem duplicate_task_id_last_wins :
  forall tasks i j ti tj x,
    i < j -> nth_error tasks i = Some ti -> nth_error tasks j = Some tj ->
    str_truthy (Task.id ti) = Some x -> str_truthy (Task.id tj) = Some x ->
    (forall k t, j < k -> nth_error tasks k = Some t -> task_key k t <> x) ->
    js_lookup x (add_tasks 0 tasks []) =
      Some (mkMapEntry tj (Z.of_nat j * 1000) (Z.of_nat j * 1000 + 1)) /\
    (forall m', resolve_deps (add_tasks 0 tasks []) = Ok m' ->
       count_steps (is_run_for x) (sort_plan (make_plan m')) = 1 /\
       count_steps (is_wait_for x) (sort_plan (make_plan m')) = 1 /\
       (forall k me, js_lookup k m' = Some me -> me_task me = ti -> ti = tj)) /\
    (forall JP dm mods ctx st,
       result_state (runTaskList JP dm mods ctx tasks) = Some st ->
       (forall k rep, js_lookup k (ex_started st) = Some rep -> rep_task rep = ti -> ti = tj) /\
       (forall rep, In rep (ex_reports st) -> rep_task rep = ti -> ti = tj)) /\
    (forall vt parentId,
       (forall tid t, In t tasks -> vt tid t = true) ->
       (forall t r, In t tasks -> str_truthy (Task.runBeforeAsync t) = Some r ->
                    rba_found tasks r = true) ->
       validateTaskList vt parentId tasks = (true, [])).
Proof.
  intros tasks i j ti tj x Hij Hi Hj Hxi Hxj Hlast.
  assert (Hmap : js_lookup x (add_tasks 0 tasks []) =
                 Some (mkMapEntry tj (Z.of_nat j * 1000) (Z.of_nat j * 1000 + 1))).
  { rewrite add_tasks_lookup.
    rewrite (last_with_key_spec tasks 0 j tj x Hj (task_key_truthy _ _ _ Hxj) Hlast).
    reflexivity. }
  assert (Honly : forall m', same_shape (add_tasks 0 tasks []) m' ->
                  forall k me, js_lookup k m' = Some me -> me_task me = ti -> ti = tj).
  { intros m' Hs. apply (add_tasks_only_last tasks ti tj x m' Hxi); [|exact Hs].
    intros me Hme. rewrite Hmap in Hme. injection Hme as <-. reflexivity. }
  split; [exact Hmap|split; [|split]].
  - intros m' Hr. pose proof (resolve_deps_shape _ _ Hr) as Hs.
    assert (Hc : key_count (map fst m') x = 1).
    { destruct Hs as [Hk _]. rewrite Hk. unfold key_count.
      apply (NoDup_count_occ' string_dec).
      - apply add_tasks_NoDup. constructor.
      - eapply js_lookup_in_keys. exact Hmap. }
    destruct (make_plan_count m' x) as [C1 C2].
    rewrite !count_sort_plan, C1, C2, Hc. split; [reflexivity|split; [reflexivity|]].
    apply Honly, Hs.
  - intros JP dm mods ctx st. unfold runTaskList.
    destruct (resolve_deps (add_tasks 0 tasks [])) as [m'|e] eqn:Hr; [|discriminate].
    intros Hst. pose proof (resolve_deps_shape _ _ Hr) as Hs.
    destruct (exec_tasks_from_map JP dm mods (ctx_defaults ctx) m' _ _ _ st
                (tasks_from_map_init m' (ctx_params ctx)) eq_refl Hst) as [H1 H2].
    split.
    + intros k rep Hk Ht. destruct (H1 _ _ Hk) as [me [Hm He]].
      apply (Honly m' Hs k me Hm). congruence.
    + intros rep Hin Ht. destruct (H2 _ Hin) as [k [me [Hm He]]].
      apply (Honly m' Hs k me Hm). congruence.
  - intros vt parentId Hv Hr. apply validateTaskList_ok; assumption.
Qed.

(* ------------------------------------------------------------------ *)
(** ** runBeforeAsync *)










Lemma duplicate_task_id_last_wins_witness :
  js_lookup "x" (add_tasks 0 duplicate_tasks []) =
    Some (mkMapEntry (mk_task (Some "x") "echo.fail" None) (Z.of_nat 1 * 1000)
                     (Z.of_nat 1 * 1000 + 1)).
Proof.
  refine (proj1 (duplicate_task_id_last_wins duplicate_tasks 0 1
                   (mk_task (Some "x") "echo.say" None) (mk_task (Some "x") "echo.fail" None) "x"
                   _ _ _ _ _ _)).
  - lia.
  - reflexivity.
  - reflexivity.
  - reflexivity.
  - reflexivity.
  - intros k t Hk Hn. destruct k as [|[|k]]; [lia|lia|]. simpl in Hn. destruct k; discriminate Hn.
Defined.

(* ------------------------------------------------------------------ *)
(** ** Runner.run: the counters of the report *)

Lemma failing_count_nil : failing_count [] = 0.
Proof. reflexivity. Qed.

Lemma failing_count_snoc l r :
  failing_count (l ++ [r]) = failing_count l + (if has_errors (rep_errors r) then 1 else 0).
Proof.
  unfold failing_count. rewrite filter_app, length_app. simpl.
  destruct (has_errors (rep_errors r)); simpl; lia.
Qed.

Lemma after_wait_count st id rep :
  ex_errorCount st = failing_count (ex_reports st) ->
  ex_errorCount (after_wait st id rep) = failing_count (ex_reports (after_wait st id rep)).
Proof.
  intro H. unfold after_wait; cbn [ex_errorCount ex_reports].
  rewrite failing_count_snoc, <- H. destruct (has_errors (rep_errors rep)); lia.
Qed.

Lemma exec_errorCount JP dm mods d m plan : forall st st',
  ex_errorCount st = failing_count (ex_reports st) ->
  (exec JP dm mods d m plan st = Done st' \/ exec JP dm mods d m plan st = Terminated st') ->
  ex_errorCount st' = failing_count (ex_reports st').
Proof.
  induction plan as [|[id o|id o] plan IH]; intros st st' Hst Hex; simpl in Hex.
  - destruct Hex as [Hex|Hex]; inversion Hex; subst; assumption.
  - destruct (js_lookup id m) as [target|]; [|destruct Hex as [Hex|Hex]; discriminate].
    destruct (tr_ready _); [|destruct Hex as [Hex|Hex]; discriminate].
    eapply IH; [|exact Hex]; exact Hst.
  - destruct (js_lookup id (ex_started st)) as [rep|]; [|destruct Hex as [Hex|Hex]; discriminate].
    destruct (should_terminate rep).
    + destruct Hex as [Hex|Hex]; inversion Hex; subst. apply after_wait_count; assumption.
    + exact (IH _ _ (after_wait_count st id rep Hst) Hex).
Qed.

Lemma run_list_errorCount JP dm mods ctx tasks st :
  run_list JP dm mods ctx tasks = Some st -> ex_errorCount st = failing_count (ex_reports st).
Proof.
  unfold run_list, runTaskList, completed.
  destruct (resolve_deps _) as [x|x]; [|intro H; discriminate H|..];
    try (intro H; discriminate H).
  destruct (exec _ _ _ _ _ _ _) as [s|s|s|msg] eqn:E; intro H; try discriminate H;
    injection H as <-; (eapply exec_errorCount; [|eauto]); reflexivity.
Qed.

Lemma runTest_errorCount JP dm mods ctx ts test r :
  runTest JP dm mods ctx ts test = Some r -> tst_errorCount r = test_failing r.
Proof.
  unfold runTest. cbv zeta.
  destruct (run_list _ _ _ _ (se_beforeEachTasks ts)) as [b|] eqn:Eb; [|discriminate].
  assert (Hb := run_list_errorCount _ _ _ _ _ _ Eb).
  destruct (Nat.eqb (ex_errorCount b) 0) eqn:Ez.
  - destruct (run_list _ _ _ _ (te_tasks test)) as [t|] eqn:Et; [|discriminate].
    assert (Ht := run_list_errorCount _ _ _ _ _ _ Et).
    destruct (run_list _ _ _ _ (se_afterEachTasks ts)) as [a|] eqn:Ea; [|discriminate].
    assert (Ha := run_list_errorCount _ _ _ _ _ _ Ea).
    intro H; injection H as <-. unfold test_failing; cbn [tst_errorCount tst_beforeTasks tst_tasks tst_afterTasks]. lia.
  - destruct (run_list _ _ _ _ (se_afterEachTasks ts)) as [a|] eqn:Ea; [|discriminate].
    assert (Ha := run_list_errorCount _ _ _ _ _ _ Ea).
    intro H; injection H as <-. unfold test_failing; cbn [tst_errorCount tst_beforeTasks tst_tasks tst_afterTasks].
    rewrite failing_count_nil. lia.
Qed.

Lemma run_tests_spec JP dm mods ctx ts tests : forall rs k,
  run_tests JP dm mods ctx ts tests = Some (rs, k) ->
  length rs + k = length tests /\ Forall (fun t => tst_errorCount t = test_failing t) rs.
Proof.
  induction tests as [|t tests IH]; intros rs k H; simpl in H.
  - injection H as <- <-. auto.
  - destruct (skip_truthy (te_skip t)).
    + destruct (run_tests _ _ _ _ _ tests) as [[rs' k']|] eqn:E; [|discriminate].
      injection H as <- <-. destruct (IH _ _ eq_refl) as [Hl Hf]. simpl. split; [lia|exact Hf].
    + destruct (runTest _ _ _ _ _ t) as [r|] eqn:Er; [|discriminate].
      destruct (run_tests _ _ _ _ _ tests) as [[rs' k']|] eqn:E; [|discriminate].
      injection H as <- <-. destruct (IH _ _ eq_refl) as [Hl Hf]. simpl. split; [lia|].
      constructor; [exact (runTest_errorCount _ _ _ _ _ _ _ Er)|exact Hf].
Qed.

Lemma fold_add {A} (f : A -> nat) l : forall a,
  fold_left (fun acc c => acc + f c) l a = a + list_sum (map f l).
Proof. induction l as [|x l IH]; intro a; simpl; [lia|rewrite IH; lia]. Qed.

Lemma fold_jplus_nan {A} (g : A -> jsnum) l :
  fold_left (fun acc c => jplus acc (g c)) l JNaN = JNaN.
Proof. induction l as [|x l IH]; simpl; [reflexivity|exact IH]. Qed.

Lemma fold_jplus_num {A} (g : A -> jsnum) l : forall a k,
  fold_left (fun acc c => jplus acc (g c)) l a = JNum k ->
  exists a0 ns, a = JNum a0 /\ Forall2 (fun c n => g c = JNum n) l ns /\ k = a0 + list_sum ns.
Proof.
  induction l as [|x l IH]; intros a k H; simpl in H.
  - subst a. exists k, []. split; [reflexivity|split; [constructor|simpl; lia]].
  - destruct (IH _ _ H) as (b & ns & Hb & Hf & Hk).
    destruct a as [a0| |]; [|discriminate|discriminate].
    destruct (g x) as [n| |] eqn:Eg; [|discriminate|discriminate].
    simpl in Hb. injection Hb as <-.
    exists a0, (n :: ns). split; [reflexivity|split; [constructor; assumption|simpl; lia]].
Qed.

Lemma sum_split {A} (f h i : A -> nat) (g : A -> jsnum) l ns :
  Forall2 (fun c n => g c = JNum n) l ns ->
  Forall (fun c => forall k, g c = JNum k -> f c = k + h c + i c) l ->
  list_sum (map f l) = list_sum ns + list_sum (map h l) + list_sum (map i l).
Proof.
  induction 1 as [|c n l ns Hc Hl IH]; intro Hf; simpl; [reflexivity|].
  inversion Hf as [|? ? Hfc Hfl]; subst.
  rewrite (Hfc n Hc), (IH Hfl). lia.
Qed.

Lemma jplus_undef a e : jplus a (entry_testCount e) = JNaN.
Proof. destruct a; reflexivity. Qed.

Lemma run_children_spec (runSet : set_entry -> option set_report) (Q : set_report -> Prop) cs :
  (forall k c r, In (k, c) cs -> runSet c = Some r -> Q r) ->
  forall sk rs sk', run_children runSet cs sk = Some (rs, sk') ->
  Forall Q rs /\ (sk' = sk \/ sk' = JNaN) /\
  ((exists k c, In (k, c) cs /\ skip_truthy (se_skip c) = true) -> sk' = JNaN).
Proof.
  intro HQ; induction cs as [|[k c] cs IH]; intros sk rs sk' H; simpl in H.
  - injection H as <- <-. split; [constructor|split; [left; reflexivity|]].
    intros (k & c & [] & _).
  - assert (IH' := IH (fun k' c' r Hin => HQ k' c' r (or_intror Hin))).
    destruct (skip_truthy (se_skip c)) eqn:Es.
    + rewrite jplus_undef in H. destruct (IH' _ _ _ H) as [Hf [Hs Hn]].
      assert (Hnan : sk' = JNaN) by (destruct Hs; assumption).
      split; [exact Hf|split; [right; exact Hnan|intros _; exact Hnan]].
    + destruct (runSet c) as [r|] eqn:Er; [|discriminate].
      destruct (run_children runSet cs sk) as [[rs' sk'']|] eqn:E; [|discriminate].
      injection H as <- <-. destruct (IH' _ _ _ E) as [Hf [Hs Hn]].
      split; [constructor; [exact (HQ k c r (or_introl eq_refl) Er)|exact Hf]|].
      split; [exact Hs|]. intros (k' & c' & [Heq|Hin] & Hsk).
      * injection Heq as <- <-. congruence.
      * apply Hn. exists k', c'. auto.
Qed.

Lemma runTestSet_counts JP dm mods : forall e ctx r,
  runTestSet JP dm mods ctx e = Some r ->
  sr_errorCount r = set_failing r /\
  (forall k, sr_skippedCount r = JNum k -> sr_testCount r = k + set_executed r + set_blocked r).
Proof.
  intro e. induction e as [e IHe] using set_entry_ind'.
  destruct e as [sch id ln path tags defs params be ae ba aa tests children skip].
  cbn [se_children] in IHe. intros ctx r H.
  cbn [runTestSet] in H. cbv zeta in H.
  destruct (run_list _ _ _ _ ba) as [b|] eqn:Eb; [|discriminate].
  assert (Hb := run_list_errorCount _ _ _ _ _ _ Eb).
  destruct (Nat.eqb (ex_errorCount b) 0) eqn:Ez.
  - apply Nat.eqb_eq in Ez.
    destruct (run_tests _ _ _ _ _ tests) as [[trs nskip]|] eqn:Et; [|discriminate].
    destruct (run_tests_spec _ _ _ _ _ _ _ _ Et) as [Hl Htf].
    match type of H with
    | context [run_children ?rs children (JNum nskip)] =>
        destruct (run_children rs children (JNum nskip)) as [[crs sk]|] eqn:Ec; [|discriminate];
        destruct (run_children_spec rs
                    (fun r => sr_errorCount r = set_failing r /\
                       (forall k, sr_skippedCount r = JNum k ->
                          sr_testCount r = k + set_executed r + set_blocked r))
                    children (fun k c r Hin Hr => IHe k c Hin _ _ Hr) _ _ _ Ec)
          as [Hcf [Hsk _]]
    end.
    cbv beta iota in H.
    destruct (run_list _ _ _ _ aa) as [a|] eqn:Ea; [|discriminate].
    assert (Ha := run_list_errorCount _ _ _ _ _ _ Ea).
    injection H as <-. cbn [sr_errorCount sr_skippedCount sr_testCount set_failing set_executed
                            set_blocked sr_testSet se_tests].
    split.
    + rewrite !fold_add.
      rewrite (map_ext_Forall _ _ Htf).
      rewrite (map_ext_Forall _ _ (Forall_impl _ (fun c (Hc : _ /\ _) => proj1 Hc) Hcf)).
      lia.
    + intros k Hk. apply fold_jplus_num in Hk. destruct Hk as (a0 & ns & Ha0 & Hns & Hk).
      assert (a0 = nskip) by (destruct Hsk as [Hsk|Hsk]; rewrite Hsk in Ha0; congruence).
      subst a0. rewrite fold_add.
      rewrite (sum_split _ _ _ _ _ _ Hns (Forall_impl _ (fun c (Hc : _ /\ _) => proj2 Hc) Hcf)).
      rewrite <- Hb, Ez. simpl Nat.eqb. cbv iota. lia.
  - assert (Hnz : failing_count (ex_reports b) <> 0) by (apply Nat.eqb_neq in Ez; congruence).
    cbv beta iota in H.
    destruct (run_list _ _ _ _ aa) as [a|] eqn:Ea; [|discriminate].
    assert (Ha := run_list_errorCount _ _ _ _ _ _ Ea).
    injection H as <-. cbn [sr_errorCount sr_skippedCount sr_testCount set_failing set_executed
                            set_blocked sr_testSet se_tests map list_sum fold_right length].
    split; [lia|]. intros k Hk. injection Hk as <-.
    apply Nat.eqb_neq in Hnz. rewrite Hnz. lia.
Qed.

(** C2: for a run that completes, [errorCount] is the number of task
    reports with errors over the tree (not the number of errors), and when
    [skippedCount] is a number [k], [testCount] is [k] plus the tests run
    plus the tests of sets whose [beforeAll] failed (neither run nor
    skipped).  A skipped root-level set makes [skippedCount] NaN, since it
    adds the [testCount] a set entry does not have. *)
Theorem run_report_counters JP dm mods testSets r :
  run JP dm mods testSets = Some r ->
  cr_errorCount r = list_sum (map set_failing (cr_testSets r)) /\
  (forall k, cr_skippedCount r = JNum k ->
     cr_testCount r = k + list_sum (map set_executed (cr_testSets r)) +
                      list_sum (map set_blocked (cr_testSets r))) /\
  ((exists name s, In (name, s) testSets /\ skip_truthy (se_skip s) = true) ->
     cr_skippedCount r = JNaN).
Proof.
  unfold run.
  match goal with
  | |- context [run_children ?rs testSets (JNum 0)] =>
      destruct (run_children rs testSets (JNum 0)) as [[crs sk]|] eqn:Ec; [|discriminate];
      destruct (run_children_spec rs
                  (fun r => sr_errorCount r = set_failing r /\
                     (forall k, sr_skippedCount r = JNum k ->
                        sr_testCount r = k + set_executed r + set_blocked r))
                  testSets (fun k c r Hin Hr => runTestSet_counts _ _ _ c _ r Hr) _ _ _ Ec)
        as [Hcf [Hsk Hnan]]
  end.
  intro H; injection H as <-. cbn [cr_errorCount cr_skippedCount cr_testCount cr_testSets].
  split; [|split].
  - rewrite fold_add.
    rewrite (map_ext_Forall _ _ (Forall_impl _ (fun c (Hc : _ /\ _) => proj1 Hc) Hcf)). lia.
  - intros k Hk. apply fold_jplus_num in Hk. destruct Hk as (a0 & ns & Ha0 & Hns & Hk).
    assert (a0 = 0) by (destruct Hsk as [Hsk|Hsk]; rewrite Hsk in Ha0; congruence).
    subst a0. rewrite fold_add.
    rewrite (sum_split _ _ _ _ _ _ Hns (Forall_impl _ (fun c (Hc : _ /\ _) => proj2 Hc) Hcf)).
    lia.
  - intro Hs. rewrite (Hnan Hs). apply fold_jplus_nan.
Qed.

(** C2: a skipped root-level set "a" with one test gives [testCount] 0
    and [skippedCount] NaN; with a failing [beforeAll] its test is counted
    in [testCount] but neither run nor skipped. *)
Lemma run_report_counters_counterexample :
  match example_report true [] with
  | Some r => cr_testCount r = 0 /\ cr_skippedCount r = JNaN
  | None => False
  end /\
  match example_report false [mk_task None "echo.fail" None] with
  | Some r => cr_testCount r = 1 /\ cr_skippedCount r = JNum 0 /\
              list_sum (map set_executed (cr_testSets r)) = 0
  | None => False
  end.
Proof. vm_compute. repeat split. Qed.

Lemma run_report_counters_witness :
  exists r, example_report false [] = Some r /\
    cr_testCount r = 0 + list_sum (map set_executed (cr_testSets r)) +
                     list_sum (map set_blocked (cr_testSets r)).
Proof.
  destruct (example_report false []) as [r|] eqn:E.
  - exists r. split; [reflexivity|].
    apply (proj1 (proj2 (run_report_counters _ _ _ _ r E))).
    vm_compute in E. injection E as <-. reflexivity.
  - vm_compute in E. discriminate E.
Defined.

(* ------------------------------------------------------------------ *)
(** ** Task lists: the plan, termination and the collected reports *)

Lemma js_set_new {A} k (v : A) : forall m, ~ In k (map fst m) -> js_set k v m = m ++ [(k, v)].
Proof.
  induction m as [|[k' v'] r IH]; simpl; intros H; [reflexivity|].
  destruct (String.eqb k k') eqn:E.
  - apply String.eqb_eq in E. subst. tauto.
  - rewrite IH; [reflexivity|tauto].
Qed.

Lemma keys_entries i tasks : map fst (entries_from i tasks) = keys_from i tasks.
Proof. revert i; induction tasks as [|t r IH]; intro i; simpl; [reflexivity|]. rewrite IH. reflexivity. Qed.

Lemma add_tasks_fresh : forall tasks i m,
  NoDup (keys_from i tasks) -> (forall k, In k (keys_from i tasks) -> ~ In k (map fst m)) ->
  add_tasks i tasks m = m ++ entries_from i tasks.
Proof.
  induction tasks as [|t r IH]; intros i m Hnd Hfr; simpl; [rewrite app_nil_r; reflexivity|].
  inversion Hnd as [|? ? Hn Hd]; subst.
  rewrite js_set_new by (apply Hfr; left; reflexivity).
  rewrite IH; [rewrite <- app_assoc; reflexivity|exact Hd|].
  intros k Hk. rewrite map_app, in_app_iff. simpl. intros [H|[H|[]]].
  - exact (Hfr k (or_intror Hk) H).
  - subst. exact (Hn Hk).
Qed.

Lemma lookup_NoDup_in {A} (m : list (string * A)) k v :
  NoDup (map fst m) -> In (k, v) m -> js_lookup k m = Some v.
Proof.
  induction m as [|[k' v'] r IH]; simpl; [tauto|]. intros Hnd [H|H].
  - injection H as <- <-. rewrite String.eqb_refl. reflexivity.
  - inversion Hnd as [|? ? Hn Hd]; subst.
    destruct (String.eqb k k') eqn:E.
    + apply String.eqb_eq in E. subst. exfalso. apply Hn. apply in_map_iff. exists (k', v). auto.
    + apply IH; assumption.
Qed.

Lemma Permutation_flat_map' {A B} (g : A -> list B) l1 l2 :
  Permutation l1 l2 -> Permutation (flat_map g l1) (flat_map g l2).
Proof.
  induction 1; simpl.
  - constructor.
  - apply Permutation_app_head. assumption.
  - rewrite !app_assoc. apply Permutation_app_tail, Permutation_app_comm.
  - eapply Permutation_trans; eassumption.
Qed.

Lemma js_keys_perm_fst {A} (m : list (string * A)) : Permutation (js_keys m) (map fst m).
Proof.
  apply (Permutation_count_occ string_dec). intros x. apply js_keys_count.
Qed.

Lemma perm_insert_step x : forall l, Permutation (insert_step x l) (x :: l).
Proof.
  induction l as [|y r IH]; simpl; [constructor; constructor|].
  destruct (Z.ltb (step_order x) (step_order y)); [reflexivity|].
  eapply Permutation_trans; [apply perm_skip, IH|apply perm_swap].
Qed.

Lemma perm_sort_plan l : Permutation (sort_plan l) l.
Proof.
  unfold sort_plan. cut (forall acc, Permutation (fold_left (fun acc x => insert_step x acc) l acc) (acc ++ l)).
  { intros H. apply H. }
  induction l as [|x r IH]; intros acc; simpl; [rewrite app_nil_r; reflexivity|].
  eapply Permutation_trans; [apply IH|].
  eapply Permutation_trans; [apply Permutation_app_tail, perm_insert_step|].
  simpl. apply Permutation_middle.
Qed.

Lemma sorted_perm_unique : forall l1 l2,
  StronglySorted order_le l1 -> StronglySorted order_le l2 -> Permutation l1 l2 ->
  NoDup (map step_order l1) -> l1 = l2.
Proof.
  induction l1 as [|h1 t1 IH]; intros l2 S1 S2 P Hnd.
  - symmetry. apply Permutation_nil, P.
  - destruct l2 as [|h2 t2]; [apply Permutation_sym, Permutation_nil in P; discriminate|].
    apply StronglySorted_inv in S1 as [S1 F1]. apply StronglySorted_inv in S2 as [S2 F2].
    simpl in Hnd. inversion Hnd as [|? ? Hn Hd]; subst.
    assert (Hh : h1 = h2).
    { destruct (Permutation_in h2 (Permutation_sym P) (or_introl eq_refl)) as [E|Hin2]; [congruence|].
      destruct (Permutation_in h1 P (or_introl eq_refl)) as [E|Hin1]; [congruence|].
      rewrite Forall_forall in F1, F2. pose proof (F1 _ Hin2) as L1. pose proof (F2 _ Hin1) as L2.
      unfold order_le in L1, L2. exfalso. apply Hn. apply in_map_iff. exists h2. split; [lia|exact Hin2]. }
    subst h2. f_equal. apply IH; [assumption|assumption| |assumption].
    apply Permutation_cons_inv with h1. exact P.
Qed.

Lemma seq_plan_lower i tasks : Forall (fun s => (Z.of_nat i * 1000 <= step_order s)%Z) (seq_plan_from i tasks).
Proof.
  revert i; induction tasks as [|t r IH]; intro i; simpl; [constructor|].
  repeat constructor; simpl; try lia.
  eapply Forall_impl; [|apply IH]. simpl. intros a Ha. lia.
Qed.

Lemma seq_plan_strict i tasks :
  StronglySorted (fun a b => (step_order a < step_order b)%Z) (seq_plan_from i tasks).
Proof.
  revert i; induction tasks as [|t r IH]; intro i; simpl; [constructor|].
  pose proof (seq_plan_lower (S i) r) as L.
  constructor; [constructor; [apply IH|]|].
  - eapply Forall_impl; [|exact L]. simpl. intros a Ha. lia.
  - constructor; [simpl; lia|]. eapply Forall_impl; [|exact L]. simpl. intros a Ha. lia.
Qed.

Lemma strict_sorted_le l :
  StronglySorted (fun a b => (step_order a < step_order b)%Z) l -> StronglySorted order_le l.
Proof.
  induction 1; constructor; [assumption|]. eapply Forall_impl; [|eassumption].
  unfold order_le. intros; lia.
Qed.

Lemma strict_sorted_NoDup l :
  StronglySorted (fun a b => (step_order a < step_order b)%Z) l -> NoDup (map step_order l).
Proof.
  induction 1 as [|a l Hs IH Hf]; simpl; constructor; [|assumption].
  rewrite in_map_iff. intros (b & Hb & Hin). rewrite Forall_forall in Hf.
  pose proof (Hf b Hin). lia.
Qed.

Lemma entries_plan : forall tasks i m,
  (forall kv, In kv (entries_from i tasks) -> js_lookup (fst kv) m = Some (snd kv)) ->
  flat_map (fun id => match js_lookup id m with
                      | Some me => [RunTask id (me_runOrder me); WaitFor id (me_waitOrder me)]
                      | None => []
                      end) (keys_from i tasks) = seq_plan_from i tasks.
Proof.
  induction tasks as [|t r IH]; intros i m H; simpl; [reflexivity|].
  pose proof (H _ (or_introl eq_refl)) as E. simpl in E. rewrite E. simpl. f_equal. f_equal. apply IH.
  intros kv Hkv. apply H. right. exact Hkv.
Qed.

Lemma resolve_fold_id : forall ks m,
  (forall k me, js_lookup k m = Some me -> str_truthy (Task.runBeforeAsync (me_task me)) = None) ->
  fold_left resolve_dep ks (Ok m) = Ok m.
Proof.
  induction ks as [|k ks IH]; intros m H; simpl; [reflexivity|].
  cbn [resolve_dep]. destruct (js_lookup k m) as [me|] eqn:E; [rewrite (H _ _ E)|]; apply IH, H.
Qed.

(** When the task keys are distinct and no task has [runBeforeAsync],
    [runTaskList] runs the tasks strictly in list order: the dependency
    pass changes nothing and the sorted plan is run task 0, wait for task 0,
    run task 1, ..., whatever the for-in order of the keys. *)
Theorem runTaskList_sequential_plan JP dm mods ctx tasks :
  NoDup (keys_from 0 tasks) ->
  Forall (fun t => str_truthy (Task.runBeforeAsync t) = None) tasks ->
  runTaskList JP dm mods ctx tasks =
    exec JP dm mods (ctx_defaults ctx) (add_tasks 0 tasks []) (seq_plan_from 0 tasks)
         (mkExec (ctx_params ctx) [] [] 0 []).
Proof.
  intros Hnd Hrba.
  assert (Hm : add_tasks 0 tasks [] = entries_from 0 tasks)
    by (rewrite add_tasks_fresh; [reflexivity|exact Hnd|intros k _ []]).
  assert (Hnd' : NoDup (map fst (entries_from 0 tasks))) by (rewrite keys_entries; exact Hnd).
  unfold runTaskList, resolve_deps. rewrite resolve_fold_id.
  2:{ intros k me Hk. rewrite add_tasks_lookup in Hk.
      destruct (last_with_key 0 tasks k) as [[j t]|] eqn:E; [|discriminate].
      injection Hk as <-. simpl.
      destruct (last_with_key_sound _ _ _ _ _ E) as [n [Hn _]].
      rewrite Forall_forall in Hrba. apply Hrba. eapply nth_error_In. exact Hn. }
  f_equal. rewrite Hm.
  apply sorted_perm_unique.
  - apply sort_plan_sorted.
  - apply strict_sorted_le, seq_plan_strict.
  - eapply Permutation_trans; [apply perm_sort_plan|]. unfold make_plan.
    eapply Permutation_trans; [apply Permutation_flat_map', js_keys_perm_fst|].
    rewrite keys_entries. rewrite entries_plan; [reflexivity|].
    intros kv Hkv. apply lookup_NoDup_in; [exact Hnd'|]. destruct kv; exact Hkv.
  - eapply Permutation_NoDup; [|apply strict_sorted_NoDup, (seq_plan_strict 0 tasks)].
    apply Permutation_map. apply Permutation_sym.
    eapply Permutation_trans; [apply perm_sort_plan|]. unfold make_plan.
    eapply Permutation_trans; [apply Permutation_flat_map', js_keys_perm_fst|].
    rewrite keys_entries. rewrite entries_plan; [reflexivity|].
    intros kv Hkv. apply lookup_NoDup_in; [exact Hnd'|]. destruct kv; exact Hkv.
Qed.

(** The ids "2" and "1" enumerate as "1", "2", but the plan follows the list. *)
Lemma runTaskList_sequential_plan_witness :
  NoDup (keys_from 0 reversed_id_tasks) /\
  Forall (fun t => str_truthy (Task.runBeforeAsync t) = None) reversed_id_tasks /\
  example_run reversed_id_tasks =
    exec jp_member merge_objects example_modules (ctx_defaults empty_ctx)
         (add_tasks 0 reversed_id_tasks []) (seq_plan_from 0 reversed_id_tasks)
         (mkExec (ctx_params empty_ctx) [] [] 0 []).
Proof.
  assert (H1 : NoDup (keys_from 0 reversed_id_tasks)).
  { simpl. constructor; [simpl; intros [H|[]]; discriminate H|].
    constructor; [intros []|constructor]. }
  assert (H2 : Forall (fun t => str_truthy (Task.runBeforeAsync t) = None) reversed_id_tasks)
    by (repeat constructor).
  split; [exact H1|split; [exact H2|]].
  apply (runTaskList_sequential_plan jp_member merge_objects example_modules empty_ctx
           reversed_id_tasks H1 H2).
Defined.

Lemma resolved_task_in tasks m k me :
  resolve_deps (add_tasks 0 tasks []) = Ok m -> js_lookup k m = Some me -> In (me_task me) tasks.
Proof.
  intros Hr Hk. destruct (resolve_deps_shape _ _ Hr) as [_ L].
  destruct (L k) as [Lt _]. rewrite Hk in Lt. rewrite add_tasks_lookup in Lt.
  destruct (last_with_key 0 tasks k) as [[j t]|] eqn:E; [|discriminate].
  simpl in Lt. injection Lt as ->.
  destruct (last_with_key_sound _ _ _ _ _ E) as [n [Hn _]]. eapply nth_error_In. exact Hn.
Qed.

Lemma exec_terminated JP dm mods d m : forall plan st st',
  exec JP dm mods d m plan st = Terminated st' ->
  exists pre rep, ex_reports st' = (pre ++ [rep])%list /\ should_terminate rep = true.
Proof.
  induction plan as [|[id o|id o] plan IH]; intros st st' H; simpl in H; [discriminate|..].
  - destruct (js_lookup id m); [|discriminate].
    destruct (tr_ready _); [eapply IH; exact H|discriminate].
  - destruct (js_lookup id (ex_started st)) as [rep|]; [|discriminate].
    destruct (should_terminate rep) eqn:E; [|eapply IH; exact H].
    injection H as <-. exists (ex_reports st), rep. split; [reflexivity|exact E].
Qed.

(** [runTaskList] stops before the end of its plan only right after taking
    the report of one of its tasks that has errors and no [continueOnError];
    that report is the last one collected. *)
Theorem runTaskList_terminated_cause JP dm mods ctx tasks st :
  runTaskList JP dm mods ctx tasks = Terminated st ->
  exists pre rep, ex_reports st = (pre ++ [rep])%list /\ rep_errors rep <> [] /\
    Task.continueOnError (rep_task rep) = false /\ In (rep_task rep) tasks.
Proof.
  unfold runTaskList. destruct (resolve_deps (add_tasks 0 tasks [])) as [m|e] eqn:Hr; [|discriminate].
  intros H. destruct (exec_terminated _ _ _ _ _ _ _ _ H) as (pre & rep & Hst & Ht).
  exists pre, rep. unfold should_terminate in Ht. apply andb_true_iff in Ht as [He Hc].
  split; [exact Hst|split; [destruct (rep_errors rep); discriminate|split; [destruct (Task.continueOnError (rep_task rep)); [discriminate|reflexivity]|]]].
  destruct (exec_tasks_from_map _ _ _ _ _ _ _ _ st (tasks_from_map_init m (ctx_params ctx)) H eq_refl) as [_ H2].
  destruct (H2 rep) as (k & me & Hk & Ht'); [rewrite Hst; apply in_or_app; right; left; reflexivity|].
  rewrite Ht'. eapply resolved_task_in; eassumption.
Qed.

(** The [errorCount] [runTaskList] returns is the number of collected task
    reports that have errors. *)
Theorem runTaskList_errorCount JP dm mods ctx tasks st :
  runTaskList JP dm mods ctx tasks = Done st \/ runTaskList JP dm mods ctx tasks = Terminated st ->
  ex_errorCount st = failing_count (ex_reports st).
Proof.
  unfold runTaskList. destruct (resolve_deps (add_tasks 0 tasks [])) as [m|e]; [|intros [H|H]; discriminate].
  apply exec_errorCount. reflexivity.
Qed.

Lemma exec_done_reports JP dm mods d m : forall plan st st',
  exec JP dm mods d m plan st = Done st' ->
  length (ex_reports st') = length (ex_reports st) + count_steps is_wait plan.
Proof.
  induction plan as [|[id o|id o] plan IH]; intros st st' H; simpl in H.
  - injection H as <-. unfold count_steps. simpl. lia.
  - destruct (js_lookup id m); [|discriminate].
    destruct (tr_ready _); [|discriminate]. rewrite (IH _ _ H). reflexivity.
  - destruct (js_lookup id (ex_started st)) as [rep|]; [|discriminate].
    destruct (should_terminate rep); [discriminate|].
    rewrite (IH _ _ H). unfold count_steps. simpl. rewrite length_app. simpl. lia.
Qed.

Lemma make_plan_waits m : count_steps is_wait (make_plan m) = length m.
Proof.
  unfold make_plan. rewrite <- (length_map fst m), <- (Permutation_length (js_keys_perm_fst m)).
  assert (Hk : forall k, In k (js_keys m) -> exists v, js_lookup k m = Some v)
    by (intros k Hk; apply js_lookup_complete, js_keys_sound, Hk).
  revert Hk. generalize (js_keys m) as ks.
  induction ks as [|k ks IH]; intros Hk; [reflexivity|].
  destruct (Hk k (or_introl eq_refl)) as [me E]. simpl. rewrite E.
  unfold count_steps in *. simpl. rewrite IH; [reflexivity|]. intros; apply Hk; right; assumption.
Qed.

(** A task list that runs to the end collects one report per entry of
    [taskMap], i.e. per distinct task key: tasks sharing an id give one report. *)
Theorem runTaskList_done_one_report_per_key JP dm mods ctx tasks st :
  runTaskList JP dm mods ctx tasks = Done st ->
  length (ex_reports st) = length (add_tasks 0 tasks []).
Proof.
  unfold runTaskList. destruct (resolve_deps (add_tasks 0 tasks [])) as [m|e] eqn:Hr; [|discriminate].
  intros H. rewrite (exec_done_reports _ _ _ _ _ _ _ _ H), count_sort_plan, make_plan_waits.
  destruct (resolve_deps_shape _ _ Hr) as [K _]. simpl.
  rewrite <- (length_map fst m), K, length_map. reflexivity.
Qed.

(** A first task whose command rejects stops the list. *)
Lemma runTaskList_terminated_cause_witness :
  exists st, example_run failing_tasks = Terminated st /\
  exists pre rep, ex_reports st = (pre ++ [rep])%list /\ rep_errors rep <> [] /\
    Task.continueOnError (rep_task rep) = false /\ In (rep_task rep) failing_tasks.
Proof.
  pose (st := match example_run failing_tasks with Terminated s => s | _ => empty_exec end).
  assert (H : example_run failing_tasks = Terminated st) by (vm_compute; reflexivity).
  exists st. split; [exact H|].
  exact (runTaskList_terminated_cause jp_member merge_objects example_modules empty_ctx failing_tasks st H).
Defined.

(** The failing list: one report, one error counted. *)
Lemma runTaskList_errorCount_witness :
  exists st, example_run failing_tasks = Terminated st /\ ex_errorCount st = failing_count (ex_reports st).
Proof.
  pose (st := match example_run failing_tasks with Terminated s => s | _ => empty_exec end).
  assert (H : example_run failing_tasks = Terminated st) by (vm_compute; reflexivity).
  exists st. split; [exact H|].
  exact (runTaskList_errorCount jp_member merge_objects example_modules empty_ctx failing_tasks st (or_intror H)).
Defined.

(** Three tasks with the keys x, y, x give two reports. *)
Lemma runTaskList_done_one_report_per_key_witness :
  exists st, example_run repeated_key_tasks = Done st /\
  length (ex_reports st) = length (add_tasks 0 repeated_key_tasks []) /\ length (ex_reports st) = 2.
Proof.
  pose (st := match example_run repeated_key_tasks with Done s => s | _ => empty_exec end).
  assert (H : example_run repeated_key_tasks = Done st) by (vm_compute; reflexivity).
  exists st. split; [exact H|].
  split; [exact (runTaskList_done_one_report_per_key jp_member merge_objects example_modules empty_ctx repeated_key_tasks st H)|vm_compute; reflexivity].
Defined.

Lemma has_errors_false l : has_errors l = false -> l = [].
Proof. destruct l; [reflexivity|discriminate]. Qed.

Ltac split_runTask H :=
  repeat match type of H with
  | context [match ?x with _ => _ end] => let E := fresh "E" in destruct x eqn:E
  end.

(** [runTask] invokes [cmd.run] only for a registered command that has a
    [run] and whose [validateArgs] and [validateExpect] hooks (if any)
    return no errors for the report's arguments. *)
Theorem runTask_invokes_only_valid JP dm mods ctx task :
  tr_invoked (runTask JP dm mods ctx task) = true ->
  exists cmd, getCommand mods (Task.do_ task) = Ok (CCmd cmd) /\ Cmd.run cmd <> None /\
    match Cmd.validateArgs cmd with
    | Some f => f (rep_runArgs (tr_report (runTask JP dm mods ctx task))) | None => [] end = [] /\
    match Cmd.validateExpect cmd with
    | Some f => f (rep_expectArgs (tr_report (runTask JP dm mods ctx task))) | None => [] end = [].
Proof.
  remember (runTask JP dm mods ctx task) as tr eqn:Etr. intros Hi.
  unfold runTask in Etr. cbv zeta in Etr. split_runTask Etr; subst tr; simpl in Hi |- *;
    try discriminate Hi.
  all: eexists; split; [reflexivity|]; split; [congruence|].
  all: repeat match goal with H : (_ || _) = false |- _ => apply orb_false_iff in H as [? ?] end.
  all: repeat match goal with
       | H : Cmd.validateArgs _ = _ |- _ => rewrite H in *
       | H : Cmd.validateExpect _ = _ |- _ => rewrite H in *
       end.
  all: split; apply has_errors_false; assumption.
Qed.

(** A task whose command is never invoked always has at least one error
    in its report. *)
Theorem runTask_not_invoked_reports_error JP dm mods ctx task :
  tr_invoked (runTask JP dm mods ctx task) = false ->
  rep_errors (tr_report (runTask JP dm mods ctx task)) <> [].
Proof.
  remember (runTask JP dm mods ctx task) as tr eqn:Etr. intros Hi.
  unfold runTask in Etr. cbv zeta in Etr. split_runTask Etr; subst tr; simpl in Hi |- *;
    try discriminate Hi; unfold caught; simpl; intros Hn.
  all: repeat match goal with H : _ ++ _ = [] |- _ => apply app_eq_nil in H as [? ?] end;
       try discriminate.
  all: repeat match goal with H : ?t = [] |- _ => rewrite H in *; clear H end.
  all: simpl in *; discriminate.
Qed.

(** Without a truthy [expect] property, a task that was invoked reports no
    error, or exactly one error caught in its [run] or [set] phase. *)
Theorem runTask_without_expect_errors JP dm mods ctx task :
  truthy_opt (Task.expect task) = false ->
  tr_invoked (runTask JP dm mods ctx task) = true ->
  rep_errors (tr_report (runTask JP dm mods ctx task)) = [] \/
  exists phase msg, (phase = "run" \/ phase = "set") /\
    rep_errors (tr_report (runTask JP dm mods ctx task)) =
      [("Failed to execute task " ++ phase ++ ": " ++ msg)%string].
Proof.
  remember (runTask JP dm mods ctx task) as tr eqn:Etr. intros He Hi.
  unfold runTask in Etr. cbv zeta in Etr. split_runTask Etr; subst tr; simpl in Hi |- *;
    try discriminate Hi; unfold caught; simpl; rewrite ?He; simpl.
  all: first [congruence | left; reflexivity | right;
         first [exists "set"; eexists; split; [right; reflexivity|reflexivity]
               |exists "run"; eexists; split; [left; reflexivity|reflexivity]]].
Qed.

(** [echo.say] runs. *)
Lemma runTask_invokes_only_valid_witness :
  tr_invoked (runTask jp_member merge_objects example_modules empty_ctx
                (mk_task None "echo.say" None)) = true /\
  exists cmd, getCommand example_modules "echo.say" = Ok (CCmd cmd) /\ Cmd.run cmd <> None /\
    match Cmd.validateArgs cmd with
    | Some f => f (rep_runArgs (tr_report (runTask jp_member merge_objects example_modules empty_ctx
                                            (mk_task None "echo.say" None)))) | None => [] end = [] /\
    match Cmd.validateExpect cmd with
    | Some f => f (rep_expectArgs (tr_report (runTask jp_member merge_objects example_modules empty_ctx
                                               (mk_task None "echo.say" None)))) | None => [] end = [].
Proof.
  assert (H : tr_invoked (runTask jp_member merge_objects example_modules empty_ctx
                            (mk_task None "echo.say" None)) = true) by (vm_compute; reflexivity).
  split; [exact H|].
  exact (runTask_invokes_only_valid jp_member merge_objects example_modules empty_ctx _ H).
Defined.

(** An unknown command of a registered module. *)
Lemma runTask_not_invoked_reports_error_witness :
  tr_invoked (runTask jp_member merge_objects example_modules empty_ctx
                (mk_task None "echo.nothing" None)) = false /\
  rep_errors (tr_report (runTask jp_member merge_objects example_modules empty_ctx
                           (mk_task None "echo.nothing" None))) <> [].
Proof.
  assert (H : tr_invoked (runTask jp_member merge_objects example_modules empty_ctx
                            (mk_task None "echo.nothing" None)) = false) by (vm_compute; reflexivity).
  split; [exact H|].
  exact (runTask_not_invoked_reports_error jp_member merge_objects example_modules empty_ctx _ H).
Defined.

(** A rejecting command: one error of the run phase. *)
Lemma runTask_without_expect_errors_witness :
  let t := mk_task None "echo.fail" None in
  truthy_opt (Task.expect t) = false /\
  tr_invoked (runTask jp_member merge_objects example_modules empty_ctx t) = true /\
  (rep_errors (tr_report (runTask jp_member merge_objects example_modules empty_ctx t)) = [] \/
   exists phase msg, (phase = "run" \/ phase = "set") /\
     rep_errors (tr_report (runTask jp_member merge_objects example_modules empty_ctx t)) =
       [("Failed to execute task " ++ phase ++ ": " ++ msg)%string]).
Proof.
  intros t.
  assert (H1 : truthy_opt (Task.expect t) = false) by reflexivity.
  assert (H2 : tr_invoked (runTask jp_member merge_objects example_modules empty_ctx t) = true)
    by (vm_compute; reflexivity).
  split; [exact H1|split; [exact H2|]].
  exact (runTask_without_expect_errors jp_member merge_objects example_modules empty_ctx t H1 H2).
Defined.

(** When a before-each task of a test fails, the test's own tasks are not
    run, and its error count is the failing before-each and after-each
    reports. *)
Theorem runTest_beforeEach_failure JP dm mods ctx ts test r :
  runTest JP dm mods ctx ts test = Some r ->
  failing_count (tst_beforeTasks r) <> 0 ->
  tst_tasks r = [] /\
  tst_errorCount r = failing_count (tst_beforeTasks r) + failing_count (tst_afterTasks r).
Proof.
  unfold runTest. cbv zeta.
  destruct (run_list JP dm mods _ (se_beforeEachTasks ts)) as [b|] eqn:Eb; [|discriminate].
  rewrite (run_list_errorCount _ _ _ _ _ _ Eb).
  destruct (Nat.eqb (failing_count (ex_reports b)) 0) eqn:Z.
  - destruct (run_list _ _ _ _ (te_tasks test)); [|discriminate].
    destruct (run_list _ _ _ _ (se_afterEachTasks ts)); [|discriminate].
    intros H. injection H as <-. simpl. apply Nat.eqb_eq in Z. contradiction.
  - destruct (run_list _ _ _ _ (se_afterEachTasks ts)) as [a|] eqn:Ea; [|discriminate].
    intros H _. injection H as <-. simpl. split; [reflexivity|].
    rewrite (run_list_errorCount _ _ _ _ _ _ Ea). lia.
Qed.

(** When a before-all task of a set fails, no test and no child set is
    run: the report has no tests and no children, [testCount] is the number
    of the set's own tests, [skippedCount] is 0, and the error count is the
    failing before-all and after-all reports. *)
Theorem runTestSet_beforeAll_failure JP dm mods ctx ts r :
  runTestSet JP dm mods ctx ts = Some r ->
  failing_count (sr_beforeTasks r) <> 0 ->
  sr_tests r = [] /\ sr_children r = [] /\ sr_testCount r = length (se_tests ts) /\
  sr_skippedCount r = JNum 0 /\
  sr_errorCount r = failing_count (sr_beforeTasks r) + failing_count (sr_afterTasks r).
Proof.
  destruct ts as [sch id ln path tags defs params be ae ba aa tests children skip].
  cbn [runTestSet]. cbv zeta.
  destruct (run_list JP dm mods _ ba) as [b|] eqn:Eb; [|discriminate].
  rewrite (run_list_errorCount _ _ _ _ _ _ Eb).
  destruct (Nat.eqb (failing_count (ex_reports b)) 0) eqn:Z.
  - intros H Hf. exfalso. apply Nat.eqb_eq in Z.
    repeat match type of H with
           | context [match ?x with _ => _ end] => destruct x; try discriminate H
           end.
    injection H as <-. exact (Hf Z).
  - destruct (run_list _ _ _ _ aa) as [a|] eqn:Ea; [|discriminate].
    intros H _. injection H as <-. simpl. repeat split.
    rewrite (run_list_errorCount _ _ _ _ _ _ Ea). lia.
Qed.

Lemma runTest_test JP dm mods ctx ts test r :
  runTest JP dm mods ctx ts test = Some r -> tst_test r = test.
Proof.
  unfold runTest. cbv zeta.
  repeat match goal with
         | |- context [match ?x with _ => _ end] => destruct x; try discriminate
         end; intros H; injection H as <-; reflexivity.
Qed.

(** The tests loop of [runTestSet] counts the tests with a truthy [skip]
    and reports the others, in order. *)
Theorem run_tests_skipped JP dm mods ctx ts : forall tests rs k,
  run_tests JP dm mods ctx ts tests = Some (rs, k) ->
  k = length (filter (fun t => skip_truthy (te_skip t)) tests) /\
  map tst_test rs = filter (fun t => negb (skip_truthy (te_skip t))) tests.
Proof.
  induction tests as [|t tests IH]; intros rs k H; simpl in H |- *.
  - injection H as <- <-. split; reflexivity.
  - destruct (skip_truthy (te_skip t)); simpl.
    + destruct (run_tests _ _ _ _ _ tests) as [[rs' k']|] eqn:E; [|discriminate].
      injection H as <- <-. destruct (IH _ _ eq_refl) as [-> ->]. split; reflexivity.
    + destruct (runTest _ _ _ _ _ t) as [r|] eqn:Er; [|discriminate].
      destruct (run_tests _ _ _ _ _ tests) as [[rs' k']|] eqn:E; [|discriminate].
      injection H as <- <-. destruct (IH _ _ eq_refl) as [-> <-]. simpl.
      rewrite (runTest_test _ _ _ _ _ _ _ Er). split; reflexivity.
Qed.

(** A set whose before-each list fails. *)
Lemma runTest_beforeEach_failure_witness :
  exists r, runTest jp_member merge_objects example_modules empty_ctx failing_before_set
              (say_test None) = Some r /\
  failing_count (tst_beforeTasks r) <> 0 /\
  tst_tasks r = [] /\
  tst_errorCount r = failing_count (tst_beforeTasks r) + failing_count (tst_afterTasks r).
Proof.
  pose (r := match runTest jp_member merge_objects example_modules empty_ctx failing_before_set
                     (say_test None) with Some r => r | None => mkTestReport (say_test None) [] [] [] 0 end).
  assert (H : runTest jp_member merge_objects example_modules empty_ctx failing_before_set
                (say_test None) = Some r) by (vm_compute; reflexivity).
  assert (Hf : failing_count (tst_beforeTasks r) <> 0) by (vm_compute; discriminate).
  exists r. split; [exact H|split; [exact Hf|]].
  exact (runTest_beforeEach_failure jp_member merge_objects example_modules empty_ctx _ _ r H Hf).
Defined.

(** A set whose before-all list fails. *)
Lemma runTestSet_beforeAll_failure_witness :
  exists r, runTestSet jp_member merge_objects example_modules empty_ctx failing_before_set = Some r /\
  failing_count (sr_beforeTasks r) <> 0 /\
  sr_tests r = [] /\ sr_children r = [] /\ sr_testCount r = length (se_tests failing_before_set) /\
  sr_skippedCount r = JNum 0 /\
  sr_errorCount r = failing_count (sr_beforeTasks r) + failing_count (sr_afterTasks r).
Proof.
  pose (r := match runTestSet jp_member merge_objects example_modules empty_ctx failing_before_set with
             | Some r => r | None => mkSetReport failing_before_set [] [] [] [] 0 (JNum 0) 0 end).
  assert (H : runTestSet jp_member merge_objects example_modules empty_ctx failing_before_set = Some r)
    by (vm_compute; reflexivity).
  assert (Hf : failing_count (sr_beforeTasks r) <> 0) by (vm_compute; discriminate).
  exists r. split; [exact H|split; [exact Hf|]].
  exact (runTestSet_beforeAll_failure jp_member merge_objects example_modules empty_ctx _ r H Hf).
Defined.

(** Three tests, one skipped. *)
Lemma run_tests_skipped_witness :
  exists rs k, run_tests jp_member merge_objects example_modules empty_ctx rootTestSet
                 [say_test (Some true); say_test None; say_test (Some false)] = Some (rs, k) /\
  k = length (filter (fun t => skip_truthy (te_skip t))
                [say_test (Some true); say_test None; say_test (Some false)]) /\
  map tst_test rs = filter (fun t => negb (skip_truthy (te_skip t)))
                      [say_test (Some true); say_test None; say_test (Some false)].
Proof.
  pose (p := match run_tests jp_member merge_objects example_modules empty_ctx rootTestSet
                     [say_test (Some true); say_test None; say_test (Some false)] with
             | Some p => p | None => ([], 0) end).
  assert (H : run_tests jp_member merge_objects example_modules empty_ctx rootTestSet
                [say_test (Some true); say_test None; say_test (Some false)] = Some (fst p, snd p))
    by (vm_compute; reflexivity).
  exists (fst p), (snd p). split; [exact H|].
  exact (run_tests_skipped jp_member merge_objects example_modules empty_ctx rootTestSet _ _ _ H).
Defined.

(* ------------------------------------------------------------------ *)
(** ** Repository: loading documents and validating tasks *)

Local Open Scope string_scope.

(** [loadTestSet] updates the entry of the name with [claim]. *)
Lemma loadTestSet_claim_eq root doc ok :
  loadTestSet root doc ok = update_at (js_split_dot (ss_name doc) "") (claim doc ok) root.
Proof. reflexivity. Qed.





Lemma claim_keeps_names doc ok : keeps_names (claim doc ok).
Proof. intros x. unfold claim. destruct (se_schema x); [|destruct ok]; repeat split. Qed.

Lemma find_entry_cons seg p e :
  find_entry (seg :: p) e = match js_lookup seg (se_children e) with
                            | Some c => find_entry p c | None => None end.
Proof. reflexivity. Qed.

Lemma update_at_names : forall path f e, keeps_names f ->
  se_id (update_at path f e) = se_id e /\ se_path (update_at path f e) = se_path e /\
  se_localName (update_at path f e) = se_localName e.
Proof.
  intros [|seg rest] f e Hf; simpl; [destruct (Hf e) as (? & ? & ? & _); auto|].
  repeat split.
Qed.

Lemma app_snoc_cons_inv {A} (x : A) p q y :
  (x :: p = q ++ [y])%list -> p = [] /\ x = y \/ exists q', q = x :: q' /\ p = (q' ++ [y])%list.
Proof.
  destruct q as [|z q]; simpl; intros H.
  - injection H as -> ->. left. auto.
  - injection H as -> ->. right. eauto.
Qed.

Lemma well_named_child e seg c :
  well_named e -> js_lookup seg (se_children e) = Some c ->
  se_id c = se_id e ++ "." ++ seg /\ se_path c = (se_path e ++ [seg])%list /\
  se_localName c = seg /\ well_named c.
Proof.
  intros W Hc.
  destruct (W [seg] c) as (I & P & L); [simpl; rewrite Hc; reflexivity|].
  simpl in I. rewrite str_app_nil_r in I.
  split; [exact I|split; [exact P|split; [apply (L []); reflexivity|]]].
  intros p d Hd. destruct (W (seg :: p) d) as (I' & P' & L'); [simpl; rewrite Hc; exact Hd|].
  split; [rewrite I', I; simpl; rewrite str_app_assoc; reflexivity|].
  split; [rewrite P', P, <- app_assoc; reflexivity|].
  intros q s Hq. apply (L' (seg :: q)). rewrite Hq. reflexivity.
Qed.

Lemma well_named_new_child e seg : well_named (new_child e seg).
Proof.
  intros [|s p] c Hc; simpl in Hc; [|discriminate].
  injection Hc as <-. simpl. rewrite str_app_nil_r, app_nil_r.
  split; [reflexivity|split; [reflexivity|]]. intros q s Hq. destruct q; discriminate.
Qed.

Lemma update_at_well_named : forall path f e, keeps_names f ->
  well_named e -> well_named (update_at path f e).
Proof.
  induction path as [|seg rest IH]; intros f e Hf W.
  - cbn [update_at]. destruct (Hf e) as (I & P & L & C).
    intros [|s p] c Hc.
    + injection Hc as <-. rewrite str_app_nil_r, app_nil_r.
      split; [reflexivity|split; [reflexivity|]]. intros q s Hq. destruct q; discriminate.
    + rewrite find_entry_cons, C, <- find_entry_cons in Hc. rewrite I, P. exact (W _ _ Hc).
  - set (child := match js_lookup seg (se_children e) with Some c => c | None => new_child e seg end).
    assert (Wc : se_id child = se_id e ++ "." ++ seg /\ se_path child = (se_path e ++ [seg])%list /\
                 se_localName child = seg /\ well_named child).
    { unfold child. destruct (js_lookup seg (se_children e)) as [c|] eqn:E.
      - apply well_named_child; assumption.
      - split; [reflexivity|split; [reflexivity|split; [reflexivity|apply well_named_new_child]]]. }
    destruct Wc as (Ic & Pc & Lc & Wc).
    pose proof (IH f child Hf Wc) as WX.
    destruct (update_at_names rest f child Hf) as (IX & PX & LX).
    cbn [update_at]. fold child.
    intros [|s p] c Hc.
    + injection Hc as <-. simpl. rewrite str_app_nil_r, app_nil_r.
      split; [reflexivity|split; [reflexivity|]]. intros q s Hq. destruct q; discriminate.
    + rewrite find_entry_cons in Hc. simpl in Hc |- *. rewrite js_lookup_set in Hc.
      destruct (String.eqb s seg) eqn:Es.
      * apply String.eqb_eq in Es. subst s.
        destruct (WX p c Hc) as (I' & P' & L').
        split; [rewrite I', IX, Ic, str_app_assoc; reflexivity|].
        split; [rewrite P', PX, Pc, <- app_assoc; reflexivity|].
        intros q s0 Hq. apply app_snoc_cons_inv in Hq as [[-> ->]|(q' & -> & Hp)].
        -- simpl in Hc. injection Hc as <-. rewrite LX. exact Lc.
        -- exact (L' q' s0 Hp).
      * rewrite <- find_entry_cons in Hc. exact (W _ _ Hc).
Qed.

Lemma rootTestSet_well_named : well_named rootTestSet.
Proof.
  intros [|s p] c Hc; simpl in Hc; [|discriminate].
  injection Hc as <-. split; [reflexivity|split; [reflexivity|]]. intros q s Hq. destruct q; discriminate.
Qed.

Lemma loadDocuments_fold_tree vt (sv : value -> option set_schema) docs : forall root h r' h',
  fold_left (fun (acc : set_entry * bool) doc =>
               let (r, h) := acc in
               let (r', ok) := loadTestSet_checked vt r (sv doc) in
               (r', h || negb ok)) docs (root, h) = (r', h') ->
  forall P : set_entry -> Prop,
  P root -> (forall r d ok, P r -> P (loadTestSet r d ok)) -> P r'.
Proof.
  induction docs as [|doc docs IH]; intros root h r' h' E P H0 Hs; simpl in E.
  - injection E as <- _. exact H0.
  - destruct (loadTestSet_checked vt root (sv doc)) as [r1 ok] eqn:Ec.
    eapply IH; [exact E| |exact Hs].
    unfold loadTestSet_checked in Ec. destruct (sv doc) as [d|].
    + injection Ec as <- _. apply Hs, H0.
    + injection Ec as <- _. exact H0.
Qed.

(** [Repository.loadDocuments] from the root set: every entry of the tree it
    builds has the id, path and local name of the dotted name it is
    reached by. *)
Theorem loadDocuments_well_named vt sv ignoreInvalid docs :
  well_named (fst (loadDocuments vt sv ignoreInvalid docs rootTestSet)).
Proof.
  unfold loadDocuments.
  destruct (fold_left _ docs (rootTestSet, false)) as [r' h'] eqn:E. simpl.
  apply (loadDocuments_fold_tree vt sv docs _ _ _ _ E well_named rootTestSet_well_named).
  intros r d ok W. rewrite loadTestSet_claim_eq. apply update_at_well_named; [apply claim_keeps_names|exact W].
Qed.








(* ------------------------------------------------------------------ *)
(** ** ModuleMgr: command lookup, registration and node modules *)

(** One step of [js_split_dot]. *)
Lemma js_split_dot_cons c r cur :
  js_split_dot (String c r) cur =
  if Ascii.eqb c "." then rev_string cur "" :: js_split_dot r "" else js_split_dot r (String c cur).
Proof. destruct c as [[] [] [] [] [] [] [] []]; reflexivity. Qed.

Lemma no_dot_rev : forall s acc, no_dot s = true -> no_dot acc = true -> no_dot (rev_string s acc) = true.
Proof.
  induction s as [|c s IH]; intros acc Hs Ha; simpl in *; [exact Ha|].
  apply andb_prop in Hs as [Hc Hs]. apply IH; [exact Hs|simpl; rewrite Hc, Ha; reflexivity].
Qed.

Lemma split_pieces_nodot : forall s cur, no_dot cur = true ->
  Forall (fun p => no_dot p = true) (js_split_dot s cur).
Proof.
  induction s as [|c s IH]; intros cur Hc; rewrite ?js_split_dot_cons.
  - simpl. constructor; [apply no_dot_rev; auto|constructor].
  - destruct (Ascii.eqb c ".") eqn:E.
    + constructor; [apply no_dot_rev; auto|apply IH; reflexivity].
    + apply IH. simpl. rewrite E, Hc. reflexivity.
Qed.

(** The pieces of [id.split(".", 2)] have no dot. *)
Lemma split_command_id_nodot_pieces id :
  Forall (fun p => no_dot p = true) (split_command_id id).
Proof.
  unfold split_command_id. pose proof (split_pieces_nodot id "" eq_refl) as F.
  rewrite Forall_forall in F |- *. intros x Hx. apply F.
  rewrite <- (firstn_skipn 2 (js_split_dot id "")). apply in_or_app. left. exact Hx.
Qed.

(** [ModuleMgr.getCommand] splits the id with [split(".", 2)]: a command
    it finds is stored under a module name and a command name that have no
    dot. *)
Theorem getCommand_never_dotted mods id c :
  getCommand mods id = Ok (CCmd c) ->
  exists n md k, js_lookup n mods = Some md /\ js_lookup k (Mod.commands md) = Some c /\
                 no_dot n = true /\ no_dot k = true.
Proof.
  unfold getCommand. pose proof (split_command_id_nodot_pieces id) as F.
  rewrite Forall_forall in F.
  set (path := split_command_id id) in *. cbv zeta.
  unfold js_get. destruct (js_lookup (nth 0 path "") mods) as [md|] eqn:E1;
    [|destruct (is_proto_key _); discriminate].
  set (key := match nth_error path 1 with Some c0 => c0 | None => "undefined" end).
  destruct (js_lookup key (Mod.commands md)) as [c'|] eqn:E2;
    [|destruct (is_proto_key _); discriminate].
  intros H. injection H as <-. exists (nth 0 path ""), md, key. split; [exact E1|split; [exact E2|]].
  split.
  - destruct path as [|p0 ps] eqn:Ep; [reflexivity|]. apply F. left. reflexivity.
  - unfold key. destruct (nth_error path 1) as [k|] eqn:Ek; [apply F; eapply nth_error_In; exact Ek|reflexivity].
Qed.

Lemma getCommand_never_dotted_witness :
  exists c, getCommand example_modules "echo.say" = Ok (CCmd c) /\
  exists n md k, js_lookup n example_modules = Some md /\ js_lookup k (Mod.commands md) = Some c /\
                 no_dot n = true /\ no_dot k = true.
Proof.
  pose (c := match getCommand example_modules "echo.say" with
             | Ok (CCmd c) => c | _ => echo_cmd true Resolves end).
  assert (H : getCommand example_modules "echo.say" = Ok (CCmd c)) by (vm_compute; reflexivity).
  exists c. split; [exact H|]. exact (getCommand_never_dotted example_modules "echo.say" c H).
Defined.




(** [ModuleMgr.register] keys the registry by module name: that invariant
    is kept by each successful registration. *)
Theorem register_names_match compile mods md r :
  names_match mods -> register compile mods md = Ok r -> names_match r.
Proof.
  intros Hn Hr. unfold register in Hr.
  destruct (js_get mods (Mod.name md)); try discriminate Hr.
  destruct (set_all_validators compile _ _) as [cmds|e]; [|discriminate Hr].
  injection Hr as <-. intros n m. rewrite js_lookup_set.
  destruct (String.eqb n (Mod.name md)) eqn:E.
  - intros H. injection H as <-. apply String.eqb_eq in E. simpl. congruence.
  - apply Hn.
Qed.


Lemma register_names_match_witness :
  names_match example_modules /\
  exists r, register (fun v => Ok v) example_modules math_module = Ok r /\ names_match r.
Proof.
  assert (H : names_match example_modules).
  { intros n md Hl. simpl in Hl. destruct (String.eqb n "echo") eqn:E; [|discriminate Hl].
    injection Hl as <-. apply String.eqb_eq in E. subst. reflexivity. }
  pose (r := match register (fun v => Ok v) example_modules math_module with
             | Ok r => r | Throw _ => [] end).
  assert (H2 : register (fun v => Ok v) example_modules math_module = Ok r) by (vm_compute; reflexivity).
  split; [exact H|]. exists r. split; [exact H2|].
  exact (register_names_match (fun v => Ok v) example_modules math_module r H H2).
Defined.

(** A successful [register] only adds a module. *)
Lemma register_extends compile mods md r :
  register compile mods md = Ok r -> forall n m, js_lookup n mods = Some m -> js_lookup n r = Some m.
Proof.
  intros Hr n m Hn. unfold register, js_get in Hr.
  destruct (js_lookup (Mod.name md) mods) eqn:E; [discriminate Hr|].
  destruct (is_proto_key (Mod.name md)); [discriminate Hr|].
  destruct (set_all_validators _ _ _); [|discriminate Hr].
  injection Hr as <-. rewrite js_lookup_set.
  destruct (String.eqb n (Mod.name md)) eqn:En; [|exact Hn].
  apply String.eqb_eq in En. subst. congruence.
Qed.

(** So does a successful [tryLoadNodeModule]. *)
Lemma tryLoad_extends ac rj rm mods p r :
  tryLoadNodeModule ac rj rm mods p = Ok r -> forall n m, js_lookup n mods = Some m -> js_lookup n r = Some m.
Proof.
  unfold tryLoadNodeModule. destruct (rj _) as [pkg|e]; [|discriminate].
  destruct (js_member pkg "dexitModule") as [| |[]| | | | |]; try (intros H; injection H as <-; auto).
  destruct (rm _) as [md|e]; [|discriminate]. unfold load.
  destruct (validateModuleObject _ _); [discriminate|].
  destruct (register ac mods md) as [r'|e] eqn:E; [|discriminate].
  intros H. injection H as <-. apply (register_extends _ _ _ _ E).
Qed.

(** [ModuleMgr.loadAllNodeModules] never removes or replaces a module that
    is already registered. *)
Theorem loadAllNodeModules_keeps_modules ac rj rm rd isf mods path n m :
  js_lookup n mods = Some m ->
  js_lookup n (fst (loadAllNodeModules ac rj rm rd isf mods path)) = Some m.
Proof.
  unfold loadAllNodeModules. generalize (module_list rd isf path) as l. intros l.
  revert mods. induction l as [|p l IH]; intros mods Hn; simpl; [exact Hn|].
  destruct (tryLoadNodeModule ac rj rm mods p) as [r|e] eqn:E; [|exact Hn].
  apply IH. exact (tryLoad_extends _ _ _ _ _ _ E _ _ Hn).
Qed.


Lemma loadAllNodeModules_keeps_modules_witness :
  exists m, js_lookup "echo" example_modules = Some m /\ js_lookup "echo" (fst demo_load) = Some m.
Proof.
  pose (m := match js_lookup "echo" example_modules with Some m => m | None => math_module end).
  assert (H : js_lookup "echo" example_modules = Some m) by (vm_compute; reflexivity).
  exists m. split; [exact H|].
  exact (loadAllNodeModules_keeps_modules _ _ _ _ _ example_modules "./node_modules" "echo" m H).
Defined.


